(** * go-ipld, package [memory]: nodes, merkle-links and the stream reader

    A shallow embedding of [memory/node.go] and the properties of its
    link model ([IsLink], [LinkCast], [LinkStr], [Hash], [Equal]), of the
    link extractor ([Links]) and of the token traversal ([Read], [read]). *)

From stdpp Require Import base list strings sorting gmap pretty.

Local Open Scope string_scope.
Local Open Scope list_scope.

(** ** Data model *)

(** The values a decoded document holds (Go's [interface{}] restricted to
    the shapes the package inspects).  [VNode] is a value of dynamic type
    [Node], [VArr] one of dynamic type [[]interface{}], [VStr] a Go
    [string]; [VNull] is the nil interface.  Every other Go value (a float,
    a typed slice such as [[]int], ...) is a scalar to this package and is
    kept as [VOther] with an identifying tag.

    A Go map has no duplicate keys and no iteration order that a caller may
    rely on.  A [Node] is kept here as the list of its entries: the order of
    the list stands for the incidental order in which [range] yields the
    entries, and [wf] below states that keys are not repeated.  A nil map
    or slice is not told from an empty one, as [read], [IsLink], [LinkCast],
    [LinkStr], [Hash] and [Links] behave alike on both.  [Equal] does not:
    its [reflect.DeepEqual] is given over the richer [gvalue] below. *)
#[warnings="-register-all"]
Inductive value : Type :=
| VNode (nc : list (string * value))
| VArr (sc : list value)
| VStr (s : string)
| VInt (i : Z)
| VBool (b : bool)
| VNull
| VOther (tag : nat).

Global Instance value_eq_dec : EqDecision value.
Proof.
  refine (fix go (v1 v2 : value) {struct v1} : Decision (v1 = v2) :=
    match v1, v2 with
    | VNode n1, VNode n2 =>
        cast_if (@list_eq_dec _ (@prod_eq_dec _ _ _ go) n1 n2)
    | VArr a1, VArr a2 => cast_if (@list_eq_dec _ go a1 a2)
    | VStr s1, VStr s2 => cast_if (decide (s1 = s2))
    | VInt i1, VInt i2 => cast_if (decide (i1 = i2))
    | VBool b1, VBool b2 => cast_if (decide (b1 = b2))
    | VNull, VNull => left _
    | VOther t1, VOther t2 => cast_if (decide (t1 = t2))
    | _, _ => right _
    end); abstract congruence.
Defined.

(** [type Node map[string]interface{}] *)
Definition Node : Type := list (string * value).

(** [type Link Node] *)
Definition Link : Type := Node.

(** [const LinkKey = "/"] *)
Definition LinkKey : string := "/".

(** [n[k]] with the comma-ok result: the first entry under [k]. *)
Fixpoint node_get (k : string) (n : Node) : option value :=
  match n with
  | [] => None
  | (k', v) :: rest => if String.eqb k' k then Some v else node_get k rest
  end.

(** [n[k]] as an expression: the nil interface when [k] is absent. *)
Definition node_index (n : Node) (k : string) : value :=
  default VNull (node_get k n).

(** [n[k] = v]: replaces the entry under [k], or adds one. *)
Fixpoint node_set (k : string) (v : value) (n : Node) : Node :=
  match n with
  | [] => [(k, v)]
  | (k', v') :: rest =>
      if String.eqb k' k then (k, v) :: rest else (k', v') :: node_set k v rest
  end.

(** The keys in [range] order. *)
Definition node_keys (n : Node) : list string := n.*1.

(** No key is repeated, at any depth: what every Go map satisfies. *)
Fixpoint wf (v : value) : bool :=
  match v with
  | VNode nc =>
      bool_decide (NoDup (node_keys nc)) &&
      (fix all (kvs : list (string * value)) : bool :=
         match kvs with
         | [] => true
         | (_, x) :: rest => wf x && all rest
         end) nc
  | VArr sc =>
      (fix all (vs : list value) : bool :=
         match vs with
         | [] => true
         | x :: rest => wf x && all rest
         end) sc
  | _ => true
  end.

(** Two values of the model stand for the same document when they differ at
    most in the order in which their maps list their entries, at any depth:
    the maps have the same length and every key of the first holds, in the
    second, a value that stands for the same document; slices have the same
    length and such elements at every index; scalars are the same scalar. *)
Fixpoint same_doc (v1 v2 : value) : bool :=
  match v1, v2 with
  | VNode n1, VNode n2 =>
      Nat.eqb (length n1) (length n2) &&
      (fix each (kvs : list (string * value)) : bool :=
         match kvs with
         | [] => true
         | (k, x) :: rest =>
             match node_get k n2 with
             | Some y => same_doc x y
             | None => false
             end && each rest
         end) n1
  | VArr a1, VArr a2 =>
      (fix elems (l1 l2 : list value) : bool :=
         match l1, l2 with
         | [], [] => true
         | x :: r1, y :: r2 => same_doc x y && elems r1 r2
         | _, _ => false
         end) a1 a2
  | VStr s1, VStr s2 => String.eqb s1 s2
  | VInt i1, VInt i2 => Z.eqb i1 i2
  | VBool b1, VBool b2 => Bool.eqb b1 b2
  | VNull, VNull => true
  | VOther t1, VOther t2 => Nat.eqb t1 t2
  | _, _ => false
  end.

(** ** The stream package's interface

    [node.go] imports package [coding/stream] for the token kinds, the two
    control values and the type of the callback; the package is not among
    the sources. *)

(** Modelled from the spec: [stream.ReaderToken] and its constants.  Spec 3
    names seven tokens: StartMap ([TokenNode]), Key, EndMap
    ([TokenEndNode]), StartArray ([TokenArray]), Index, EndArray and
    Value. *)
Inductive ReaderToken : Type :=
| TokenNode | TokenKey | TokenEndNode
| TokenArray | TokenIndex | TokenEndArray
| TokenValue.

(** Modelled from the spec: the values of Go's [error] that [read] tells
    apart, [stream.NodeReadAbort] and [stream.NodeReadSkip] (the control
    outcomes Abort and SkipSubtree of spec 4.4); any other non-nil error is a
    consumer error.  The nil error is [None] of [option error]. *)
Inductive error : Type :=
| NodeReadAbort
| NodeReadSkip
| ErrOther (msg : string).

Global Instance ReaderToken_eq_dec : EqDecision ReaderToken.
Proof. solve_decision. Defined.

Global Instance error_eq_dec : EqDecision error.
Proof. solve_decision. Defined.

(** Modelled from the spec: [stream.ReadFun],
    [func(path []interface{}, tokenType ReaderToken, arg interface{}) error].
    A Go callback is a closure over mutable state; the state [St] is passed
    in and out.  The path and the argument are values: the callback sees the
    path as it is when it is called. *)
Definition ReadFun (St : Type) : Type :=
  list value → ReaderToken → value → St → option error * St.

(** ** The traversal engine *)

(** [sort.Strings]: ascending in Go's [<] on strings, which compares byte by
    byte ([String.le]).  The ascending arrangement of a list is unique, so
    the sorting algorithm does not matter. *)
Definition sort_strings (keys : list string) : list string :=
  merge_sort String.le keys.

Section read.
Context {St : Type}.
Variable fn : ReadFun St.

(** The result of a traversal step: the error returned and the state of
    the callback afterwards. *)
Definition reader : Type := list value → St → option error * St.

(** The body shared by the two loops of [read] (over the sorted keys of a
    map, over the elements of a slice): announce the child with [tok],
    then traverse it under the extended path.  [(None, s)] means that the
    loop ran to its end; [(Some e, s)] that the function returns [e]. *)
Fixpoint read_loop (tok : ReaderToken) (path : list value)
    (items : list (value * reader)) (s : St) : option error * St :=
  match items with
  | [] => (None, s)
  | (seg, sub) :: rest =>
      let '(err, s1) := fn path tok seg s in
      match err with
      | Some NodeReadSkip => read_loop tok path rest s1
      | Some e => (Some e, s1)
      | None =>
          let subpath := path ++ [seg] in
          let '(err, s2) := sub subpath s1 in
          match err with
          | None | Some NodeReadSkip => read_loop tok path rest s2
          | Some e => (Some e, s2)
          end
      end
  end.

(** The last branch of [read]: [curr] is neither a map nor a slice. *)
Definition read_value (curr : value) : reader :=
  λ path s,
    let '(err, s1) := fn path TokenValue curr s in
    match err with
    | Some e => (Some e, s1)
    | None => (None, s1)
    end.

(** [func read(curr interface{}, fun stream.ReadFun, path []interface{}) error].
    The traversal of [nc[k]] is picked from the entries of [nc]; under a key
    that [nc] does not hold, [nc[k]] is the nil interface, a scalar. *)
Fixpoint read (curr : value) (path : list value) (s : St) : option error * St :=
  match curr with
  | VNode nc =>
      let '(err, s1) := fn path TokenNode VNull s in
      match err with
      | Some e => (Some e, s1)
      | None =>
          let keys := sort_strings (node_keys nc) in
          let at_key :=
            fix at_key (kvs : list (string * value)) (k : string) : reader :=
              match kvs with
              | [] => read_value VNull
              | (k', v) :: rest =>
                  if String.eqb k' k then read v else at_key rest k
              end in
          let '(err, s2) :=
            read_loop TokenKey path ((λ k, (VStr k, at_key nc k)) <$> keys) s1 in
          match err with
          | Some e => (Some e, s2)
          | None =>
              let '(err, s3) := fn path TokenEndNode VNull s2 in
              match err with
              | Some e => (Some e, s3)
              | None => (None, s3)
              end
          end
      end
  | VArr sc =>
      let '(err, s1) := fn path TokenArray VNull s in
      match err with
      | Some e => (Some e, s1)
      | None =>
          let elems :=
            fix elems (vs : list value) (i : nat) : list (value * reader) :=
              match vs with
              | [] => []
              | v :: rest => (VInt (Z.of_nat i), read v) :: elems rest (S i)
              end in
          let '(err, s2) := read_loop TokenIndex path (elems sc 0%nat) s1 in
          match err with
          | Some e => (Some e, s2)
          | None =>
              let '(err, s3) := fn path TokenEndArray VNull s2 in
              match err with
              | Some e => (Some e, s3)
              | None => (None, s3)
              end
          end
      end
  | _ => read_value curr path s
  end.

(** [func (n Node) Read(fun stream.ReadFun) error] *)
Definition Read (n : Node) (s : St) : option error * St :=
  let '(err, s1) := read (VNode n) [] s in
  match err with
  | Some NodeReadAbort | Some NodeReadSkip => (None, s1)
  | _ => (err, s1)
  end.
End read.

(** ** Link accessors *)

(** [func (l Link) LinkStr() string]: the string under ["/"], or the empty
    string when the key is absent or holds a value of another type. *)
Definition LinkStr (l : Link) : string :=
  match node_get LinkKey l with
  | Some (VStr s) => s
  | _ => ""
  end.

(** The errors [Hash] returns: the one it makes itself with
    [errors.New("no hash in link")], or the one the multihash library
    returned.  [errors.New] allocates its error, which no error of the
    library is equal to: the two kinds are kept apart. *)
Inductive hash_error (E : Type) : Type :=
| ErrNoHashInLink
| ErrDecode (e : E).
Global Arguments ErrNoHashInLink {E}.
Global Arguments ErrDecode {E} e.

Section hash.
(** [mh.FromB58String] of the external package go-multihash: the decoder of
    a textual content-identifier, with its own result and error types. *)
Context {Multihash E : Type}.
Variable FromB58String : string → Multihash + E.

(** [func (l Link) Hash() (mh.Multihash, error)] *)
Definition Hash (l : Link) : Multihash + hash_error E :=
  let s := LinkStr l in
  if String.eqb s "" then inr ErrNoHashInLink
  else match FromB58String s with
       | inl h => inl h
       | inr e => inr (ErrDecode e)
       end.
End hash.

(** ** Values as [reflect] sees them

    [Equal] hands its two links to [reflect.DeepEqual], which sees of a Go
    value what the other functions of the package never look at: whether a
    map or a slice is nil, which map object or which backing array a
    non-nil one is, and how a float compares.  [gvalue] is a value of a
    document with these.  [GNilNode] and [GNilArr] are the nil map and the
    nil slice; [GNode a nc] is the map object at address [a], with its
    entries; [GArr a sc] is a non-nil slice whose elements start at address
    [a]; [GFloat bits] is the [float64] of that IEEE 754 bit pattern
    ([0 ≤ bits < 2^64]).  The values are those of a decoded document: maps of
    type [Node], slices of type [[]interface{}], strings, [int]s, booleans,
    floats and the nil interface.  Addresses say which object a value is:
    one address may occur many times (a map stored under two keys), and
    then with the same entries ([coherent] below). *)
#[warnings="-register-all"]
Inductive gvalue : Type :=
| GNilNode
| GNode (a : nat) (nc : list (string * gvalue))
| GNilArr
| GArr (a : nat) (sc : list gvalue)
| GStr (s : string)
| GInt (i : Z)
| GBool (b : bool)
| GNull
| GFloat (bits : Z).

Global Instance gvalue_eq_dec : EqDecision gvalue.
Proof.
  refine (fix go (v1 v2 : gvalue) {struct v1} : Decision (v1 = v2) :=
    match v1, v2 with
    | GNilNode, GNilNode => left _
    | GNode a1 n1, GNode a2 n2 =>
        cast_if_and (decide (a1 = a2))
                    (@list_eq_dec _ (@prod_eq_dec _ _ _ go) n1 n2)
    | GNilArr, GNilArr => left _
    | GArr a1 s1, GArr a2 s2 =>
        cast_if_and (decide (a1 = a2)) (@list_eq_dec _ go s1 s2)
    | GStr s1, GStr s2 => cast_if (decide (s1 = s2))
    | GInt i1, GInt i2 => cast_if (decide (i1 = i2))
    | GBool b1, GBool b2 => cast_if (decide (b1 = b2))
    | GNull, GNull => left _
    | GFloat b1, GFloat b2 => cast_if (decide (b1 = b2))
    | _, _ => right _
    end); abstract congruence.
Defined.

(** [m[k]] with the comma-ok result, on the entries of a map object. *)
Fixpoint gnode_get (k : string) (nc : list (string * gvalue)) : option gvalue :=
  match nc with
  | [] => None
  | (k', v) :: rest => if String.eqb k' k then Some v else gnode_get k rest
  end.

(** No key is repeated, at any depth. *)
Fixpoint gwf (v : gvalue) : bool :=
  match v with
  | GNode _ nc =>
      bool_decide (NoDup nc.*1) &&
      (fix all (kvs : list (string * gvalue)) : bool :=
         match kvs with
         | [] => true
         | (_, x) :: rest => gwf x && all rest
         end) nc
  | GArr _ sc =>
      (fix all (vs : list gvalue) : bool :=
         match vs with
         | [] => true
         | x :: rest => gwf x && all rest
         end) sc
  | _ => true
  end.

(** What the other functions of the package see of a value: the entries of
    a map and the elements of a slice, a nil one being an empty one to
    them; a float is one of the scalars that they only pass on, kept under
    its bit pattern. *)
Fixpoint erase (g : gvalue) : value :=
  match g with
  | GNilNode => VNode []
  | GNode _ nc =>
      VNode ((fix go (kvs : list (string * gvalue)) : Node :=
                match kvs with
                | [] => []
                | (k, x) :: rest => (k, erase x) :: go rest
                end) nc)
  | GNilArr => VArr []
  | GArr _ sc =>
      VArr ((fix go (vs : list gvalue) : list value :=
               match vs with
               | [] => []
               | x :: rest => erase x :: go rest
               end) sc)
  | GStr s => VStr s
  | GInt i => VInt i
  | GBool b => VBool b
  | GNull => VNull
  | GFloat bits => VOther (Z.to_nat bits)
  end.

(** [==] on two [float64], from their bit patterns: a NaN (exponent bits all
    set, fraction not zero) is equal to nothing, itself included; the two
    zeros (all bits clear but, maybe, the sign) are equal; otherwise equal
    floats have equal bits. *)
Definition is_NaN (bits : Z) : bool :=
  Z.eqb (Z.land (Z.shiftr bits 52) 2047) 2047 &&
  negb (Z.eqb (Z.land bits (2 ^ 52 - 1)) 0).

Definition is_zero (bits : Z) : bool :=
  Z.eqb (Z.land bits (2 ^ 63 - 1)) 0.

Definition float_eq (b1 b2 : Z) : bool :=
  negb (is_NaN b1) && negb (is_NaN b2) &&
  (Z.eqb b1 b2 || (is_zero b1 && is_zero b2)).

(** [reflect.DeepEqual] of the Go library, on two values of the same static
    type.  Values of different dynamic types are never deeply equal.  Two
    maps: both nil or both not, the same length, and either the same map
    object or every key of the first holds, in the second, a deeply equal
    value.  Two slices: both nil or both not, the same length, and either
    the same first element or deeply equal elements at every index.  Two
    interfaces holding nil are deeply equal; scalars are compared with
    [==]. *)
Fixpoint DeepEqual (v1 v2 : gvalue) : bool :=
  match v1, v2 with
  | GNilNode, GNilNode => true
  | GNode a1 n1, GNode a2 n2 =>
      Nat.eqb (length n1) (length n2) &&
      (Nat.eqb a1 a2 ||
       (fix each (kvs : list (string * gvalue)) : bool :=
          match kvs with
          | [] => true
          | (k, x) :: rest =>
              match gnode_get k n2 with
              | Some y => DeepEqual x y
              | None => false
              end && each rest
          end) n1)
  | GNilArr, GNilArr => true
  | GArr a1 s1, GArr a2 s2 =>
      Nat.eqb (length s1) (length s2) &&
      (Nat.eqb a1 a2 ||
       (fix elems (l1 l2 : list gvalue) : bool :=
          match l1, l2 with
          | [], [] => true
          | x :: r1, y :: r2 => DeepEqual x y && elems r1 r2
          | _, _ => false
          end) s1 s2)
  | GStr s1, GStr s2 => String.eqb s1 s2
  | GInt i1, GInt i2 => Z.eqb i1 i2
  | GBool b1, GBool b2 => Bool.eqb b1 b2
  | GNull, GNull => true
  | GFloat b1, GFloat b2 => float_eq b1 b2
  | _, _ => false
  end.

(** A value of type [Link] as [reflect] sees it: the nil map, or a map
    object at an address with its entries. *)
Definition LinkObj : Type := option (nat * list (string * gvalue)).

Definition link_value (l : LinkObj) : gvalue :=
  match l with
  | None => GNilNode
  | Some (a, nc) => GNode a nc
  end.

(** The entries of a link, as [LinkStr], [Hash] and [IsLink] see them. *)
Definition link_entries (l : LinkObj) : Link :=
  match erase (link_value l) with
  | VNode nc => nc
  | _ => []
  end.

(** [func (l Link) Equal(l2 Link) bool] *)
Definition Equal (l l2 : LinkObj) : bool :=
  DeepEqual (link_value l) (link_value l2).

(** The map objects and the non-nil slices a value is made of, itself
    included. *)
Fixpoint objects (v : gvalue) : list gvalue :=
  match v with
  | GNode _ nc =>
      v :: (fix go (kvs : list (string * gvalue)) : list gvalue :=
              match kvs with
              | [] => []
              | (_, x) :: rest => objects x ++ go rest
              end) nc
  | GArr _ sc =>
      v :: (fix go (vs : list gvalue) : list gvalue :=
              match vs with
              | [] => []
              | x :: rest => objects x ++ go rest
              end) sc
  | _ => []
  end.

(** Two maps at one address, or two slices of one length that start at one
    address: what [reflect.DeepEqual] takes for the same object. *)
Definition same_object (o1 o2 : gvalue) : bool :=
  match o1, o2 with
  | GNode a1 _, GNode a2 _ => Nat.eqb a1 a2
  | GArr a1 s1, GArr a2 s2 => Nat.eqb a1 a2 && Nat.eqb (length s1) (length s2)
  | _, _ => false
  end.

(** The values [vs] are values of one store: an object has one content,
    wherever it occurs. *)
Definition coherent (vs : list gvalue) : bool :=
  let os := vs ≫= objects in
  forallb (λ o1,
    forallb (λ o2, implb (same_object o1 o2) (bool_decide (o1 = o2))) os) os.

(** ** Link recognition *)

(** [func IsLink(v interface{}) bool] *)
Definition IsLink (v : value) : bool :=
  match v with
  | VNode vn =>
      let ok := match node_get LinkKey vn with
                | Some (VStr _) => true
                | _ => false
                end in
      ok && Nat.eqb (length vn) 1
  | _ => false
  end.

(** [func LinkCast(v interface{}) (l Link, ok bool)]: the zero [Link] and
    [false] unless [IsLink]; otherwise a fresh map filled entry by entry. *)
Definition LinkCast (v : value) : Link * bool :=
  if negb (IsLink v) then ([], false)
  else
    let entries := match v with VNode vn => vn | _ => [] end in
    (foldl (λ l '(k, x), node_set k x l) [] entries, true).

(** ** The link extractor *)

(** [type WalkFunc func(root, curr Node, path string, err error) error],
    with the state of the closure passed in and out. *)
Definition WalkFunc (St : Type) : Type :=
  Node → Node → string → option error → St → option error * St.

Section walk.
Context {St : Type}.
Variable visit : WalkFunc St.
Variable root : Node.

(** Modelled from the spec: [Walk] is called by [Links] and is not among the
    sources.  Spec 4.3: a depth-first traversal over every Node reachable
    from the root, the root first; each Node is visited with the
    slash-joined sequence of the raw keys leading to it (the empty path for
    the root) and a nil error; a non-nil result of the visitor stops the
    walk and is its result.  Siblings are taken in [range] order.  A Node
    inside a sequence is reachable too; the spec does not say how its
    position is written in the path, the decimal index is used. *)
Fixpoint walk (curr : value) (keys : list string) (s : St) : option error * St :=
  match curr with
  | VNode nc =>
      let '(err, s1) := visit root nc (String.concat "/" keys) None s in
      match err with
      | Some e => (Some e, s1)
      | None =>
          (fix children (kvs : list (string * value)) (s : St) :=
             match kvs with
             | [] => (None, s)
             | (k, v) :: rest =>
                 let '(err, s') := walk v (keys ++ [k]) s in
                 match err with
                 | Some e => (Some e, s')
                 | None => children rest s'
                 end
             end) nc s1
      end
  | VArr sc =>
      (fix elems (vs : list value) (i : nat) (s : St) :=
         match vs with
         | [] => (None, s)
         | v :: rest =>
             let '(err, s') := walk v (keys ++ [pretty i]) s in
             match err with
             | Some e => (Some e, s')
             | None => elems rest (S i) s'
             end
         end) sc 0%nat s
  | _ => (None, s)
  end.
End walk.

(** Modelled from the spec: [Walk(node, visit)], see [walk]. *)
Definition Walk {St : Type} (n : Node) (visit : WalkFunc St) (s : St)
    : option error * St :=
  walk visit n (VNode n) [] s.

(** The closure [Links] hands to [Walk]; its state is the map [m]. *)
Definition links_visit : WalkFunc (gmap string Link) :=
  λ _ curr path err m,
    match err with
    | Some e => (Some e, m) (* if anything went wrong, bail. *)
    | None =>
        let '(l, ok) := LinkCast (VNode curr) in
        (None, if ok then <[path := l]> m else m)
    end.

Section links.
(** The walker [Links] runs; [Walk] above is the one of the spec. *)
Variable walker : Node → WalkFunc (gmap string Link) → gmap string Link →
                  option error * gmap string Link.

(** [func Links(n Node) map[string]Link] *)
Definition Links (n : Node) : gmap string Link :=
  (walker n links_visit ∅).2.
End links.

(** A walker has no access to the closure's variables: whatever holds of the
    state initially and is kept by every call of the visitor holds of the
    state it leaves. *)
Definition visits_only {St : Type}
    (walker : Node → WalkFunc St → St → option error * St) : Prop :=
  ∀ n visit s0 (P : St → Prop),
    P s0 →
    (∀ root curr path err s, P s → P (visit root curr path err s).2) →
    P (walker n visit s0).2.



(** ** Observing a traversal *)

(** One invocation of the callback: what it was given and what it returned. *)
Record call : Type := Call {
  call_path : list value;
  call_tok : ReaderToken;
  call_arg : value;
  call_res : option error
}.

(** The callback [fn] with a log of its invocations added to its state. *)
Definition traced {St : Type} (fn : ReadFun St) : ReadFun (St * list call) :=
  λ path tok arg sl,
    let r := fn path tok arg sl.1 in
    (r.1, (r.2, sl.2 ++ [Call path tok arg r.1])).

(** The invocations [Read] makes, in order. *)
Definition Read_log {St : Type} (fn : ReadFun St) (n : Node) (s : St) : list call :=
  (Read (traced fn) n (s, [])).2.2.

(** The invocations [read] makes, in order. *)
Definition read_log {St : Type} (fn : ReadFun St) (curr : value)
    (path : list value) (s : St) : list call :=
  (read (traced fn) curr path (s, [])).2.2.

(** The calls that went on: the callback returned nil or [NodeReadSkip]. *)
Definition nonstop (c : call) : Prop :=
  call_res c = None ∨ call_res c = Some NodeReadSkip.

(** The arguments of the [tok] tokens announced at exactly the path [p]. *)
Definition own_args (p : list value) (tok : ReaderToken) (log : list call)
    : list value :=
  call_arg <$> filter (λ c, call_path c = p ∧ call_tok c = tok) log.

(** ** The engine, equation by equation *)

(** Run [k] on the state [r] leaves, unless [r] carries an error. *)
Definition and_then {St : Type} (r : option error * St)
    (k : St → option error * St) : option error * St :=
  match r with
  | (Some e, s) => (Some e, s)
  | (None, s) => k s
  end.

(** What the loop of [read] over a map goes through: the sorted keys, each
    with the traversal of [nc[k]]. *)
Definition node_items {St : Type} (fn : ReadFun St) (nc : Node)
    : list (value * reader) :=
  (λ k, (VStr k, read fn (node_index nc k))) <$> sort_strings (node_keys nc).

(** What the loop of [read] over a slice goes through: the positions, each
    with the traversal of the element. *)
Definition array_items {St : Type} (fn : ReadFun St) (sc : list value)
    : list (value * reader) :=
  imap (λ i v, (VInt (Z.of_nat i), read fn v)) sc.

(** ** Start tokens and end tokens *)

(** The start token of a map or a slice. *)
Definition start_token (v : value) : option ReaderToken :=
  match v with
  | VNode _ => Some TokenNode
  | VArr _ => Some TokenArray
  | _ => None
  end.

(** The end token that closes a start token. *)
Definition matching_end (tok : ReaderToken) : option ReaderToken :=
  match tok with
  | TokenNode => Some TokenEndNode
  | TokenArray => Some TokenEndArray
  | _ => None
  end.

(** What the spec says of SkipSubtree on a start token (4.4, 8): in the
    log, every start token that the callback answered with [NodeReadSkip] is
    followed at once by its end token, at the same path. *)
Definition skipped_start_closed (log : list call) : Prop :=
  ∀ i c stop,
    log !! i = Some c →
    call_res c = Some NodeReadSkip →
    matching_end (call_tok c) = Some stop →
    ∃ c', log !! S i = Some c' ∧ call_tok c' = stop ∧ call_path c' = call_path c.

(** ** Sample documents and callbacks *)

(** A callback that goes on at every token. *)
Definition always_continue : ReadFun unit := λ _ _ _ s, (None, s).

(** A callback that skips every slice at its start token. *)
Definition skip_arrays : ReadFun unit :=
  λ _ tok _ s,
    (if decide (tok = TokenArray) then Some NodeReadSkip else None, s).

(** A callback that fails at the key ["b"]. *)
Definition fail_at_b : ReadFun unit :=
  λ _ tok arg s,
    (if decide (tok = TokenKey ∧ arg = VStr "b") then Some (ErrOther "boom")
     else None, s).

(** A callback that answers the first token with [e]. *)
Definition stop_at_once (e : error) : ReadFun unit := λ _ _ _ s, (Some e, s).

(** A callback that aborts at the first scalar. *)
Definition abort_at_value : ReadFun unit :=
  λ _ tok _ s,
    (if decide (tok = TokenValue) then Some NodeReadAbort else None, s).

(** [{"a": [1], "b": 2}], listed with ["b"] first. *)
Definition doc_array : Node := [("b", VInt 2); ("a", VArr [VInt 1])].

(** [{"a": 1, "b": 2}] in its two orders. *)
Definition doc_ab : Node := [("a", VInt 1); ("b", VInt 2)].
Definition doc_ba : Node := [("b", VInt 2); ("a", VInt 1)].

(** [{"x": {"a": 1, "b": 2}, "y": null}], the entries listed in two ways. *)
Definition doc_nested : Node :=
  [("x", VNode [("a", VInt 1); ("b", VInt 2)]); ("y", VNull)].
Definition doc_nested' : Node :=
  [("y", VNull); ("x", VNode [("b", VInt 2); ("a", VInt 1)])].

(** ** Relating two runs, and the shape of a log *)

(** Two results with the same error and related states. *)
Definition same_outcome {S1 S2 : Type} (R : S1 → S2 → Prop)
    (r1 : option error * S1) (r2 : option error * S2) : Prop :=
  r1.1 = r2.1 ∧ R r1.2 r2.2.

(** The calls of one traversal started at the path [p] that returned [e]:
    there is a last call, it returned [e], the calls before it went on, and
    every call was made at [p] or below. *)
Definition calls_ok (p : list value) (e : option error) (calls : list call) : Prop :=
  (∃ pre c, calls = pre ++ [c] ∧ call_res c = e ∧ Forall nonstop pre) ∧
  Forall (λ c, p `prefix_of` call_path c) calls.

(** The calls of one loop of [read] at the path [p], over the children
    [segs], that ended with [e]. *)
Definition loop_calls_ok (p : list value) (tok : ReaderToken)
    (segs : list value) (e : option error) (calls : list call) : Prop :=
  Forall (λ c, p `prefix_of` call_path c) calls ∧
  match e with
  | None => Forall nonstop calls
  | Some x => ∃ pre c, calls = pre ++ [c] ∧ call_res c = Some x ∧ Forall nonstop pre
  end ∧
  own_args p tok calls `prefix_of` segs ∧
  (e = None → own_args p tok calls = segs).

(** A traversal step over logging states that adds well-formed calls to
    the log. *)
Definition logs_calls {St : Type} (r : @reader (St * list call)) : Prop :=
  ∀ p s log, ∃ calls,
    (r p (s, log)).2.2 = log ++ calls ∧ calls_ok p (r p (s, log)).1 calls.

(** ** After a skipped start token *)

(** A start token that the callback answered with [NodeReadSkip]. *)
Definition skipped_start (c : call) : Prop :=
  call_res c = Some NodeReadSkip ∧ is_Some (matching_end (call_tok c)).

(** The tokens a map or a slice announces after a child: the Key or Index
    token of the next child, or its own end token. *)
Definition parent_tok (tok : ReaderToken) : Prop :=
  tok = TokenKey ∨ tok = TokenIndex ∨ tok = TokenEndNode ∨ tok = TokenEndArray.

(** [c'] is announced by the map or slice that holds the one [c] starts. *)
Definition moves_on (c c' : call) : Prop :=
  (∃ seg, call_path c = call_path c' ++ [seg]) ∧ parent_tok (call_tok c').

(** The call after the [i]-th call [c] of [calls] moves on from [c]. *)
Definition followed (calls : list call) (i : nat) (c : call) : Prop :=
  ∃ c', calls !! S i = Some c' ∧ moves_on c c'.

(** In the calls of a traversal started at [p]: a skipped start token is the
    only call, made at [p], or the next call moves on from it. *)
Definition skips_move_on (p : list value) (calls : list call) : Prop :=
  ∀ i c, calls !! i = Some c → skipped_start c →
    (calls = [c] ∧ call_path c = p) ∨ followed calls i c.

(** The same for the calls of one loop that ended with [e]: a skipped start
    token may also be the last call of the loop, when the loop ran to its
    end. *)
Definition loop_skips (p : list value) (tok : ReaderToken)
    (e : option error) (calls : list call) : Prop :=
  e ≠ Some NodeReadSkip ∧
  (calls = [] → e = None) ∧
  (∀ c, head calls = Some c → call_path c = p ∧ call_tok c = tok) ∧
  ∀ i c, calls !! i = Some c → skipped_start c →
    followed calls i c ∨
    (S i = length calls ∧ e = None ∧ ∃ seg, call_path c = p ++ [seg]).

(** A traversal step over logging states whose calls are well-formed and
    move on after a skipped start token. *)
Definition logs_moves {St : Type} (r : @reader (St * list call)) : Prop :=
  ∀ p s log, ∃ calls,
    (r p (s, log)).2.2 = log ++ calls ∧
    calls_ok p (r p (s, log)).1 calls ∧
    skips_move_on p calls.

(** A decoder that accepts the one identifier ["Qm1"]. *)
Definition sample_decoder (s : string) : nat + string :=
  if String.eqb s "Qm1" then inl 1%nat else inr "bad identifier".

(** ** The token protocol *)

(** A map or a slice as [read] goes through it: its start token, the token
    that announces a child, its end token, and the children in the order
    of the loop, each with the segment that is appended to the path. *)
Definition opened (v : value)
    : option (ReaderToken * ReaderToken * ReaderToken * list (value * value)) :=
  match v with
  | VNode nc =>
      Some (TokenNode, TokenKey, TokenEndNode,
            (λ k, (VStr k, node_index nc k)) <$> sort_strings (node_keys nc))
  | VArr sc =>
      Some (TokenArray, TokenIndex, TokenEndArray,
            imap (λ i x, (VInt (Z.of_nat i), x)) sc)
  | _ => None
  end.

(** [run p v e calls]: [calls] is a sequence of calls that a traversal of
    [v] at the path [p] can make, and [e] what it then returns.
    [run_loop p tok chs e calls]: the same for a loop over the children
    [chs] announced with [tok]; [e] is [None] when the loop runs to its
    end. *)
Inductive run : list value → value → option error → list call → Prop :=
| run_value p v e :
    opened v = None →
    run p v e [Call p TokenValue v e]
| run_refused p v start loop stop chs x :
    opened v = Some (start, loop, stop, chs) →
    run p v (Some x) [Call p start VNull (Some x)]
| run_broken p v start loop stop chs x cl :
    opened v = Some (start, loop, stop, chs) →
    run_loop p loop chs (Some x) cl →
    run p v (Some x) (Call p start VNull None :: cl)
| run_closed p v start loop stop chs cl e :
    opened v = Some (start, loop, stop, chs) →
    run_loop p loop chs None cl →
    run p v e (Call p start VNull None :: cl ++ [Call p stop VNull e])
with run_loop : list value → ReaderToken → list (value * value) →
                option error → list call → Prop :=
| loop_done p tok :
    run_loop p tok [] None []
| loop_key_stops p tok seg child rest x :
    x ≠ NodeReadSkip →
    run_loop p tok ((seg, child) :: rest) (Some x) [Call p tok seg (Some x)]
| loop_key_skips p tok seg child rest e cl :
    run_loop p tok rest e cl →
    run_loop p tok ((seg, child) :: rest) e
      (Call p tok seg (Some NodeReadSkip) :: cl)
| loop_child_stops p tok seg child rest x cs :
    x ≠ NodeReadSkip →
    run (p ++ [seg]) child (Some x) cs →
    run_loop p tok ((seg, child) :: rest) (Some x) (Call p tok seg None :: cs)
| loop_child_goes p tok seg child rest es cs e cl :
    es = None ∨ es = Some NodeReadSkip →
    run (p ++ [seg]) child es cs →
    run_loop p tok rest e cl →
    run_loop p tok ((seg, child) :: rest) e (Call p tok seg None :: cs ++ cl).

Scheme run_minimal := Minimality for run Sort Prop
  with run_loop_minimal := Minimality for run_loop Sort Prop.
Combined Scheme run_run_loop_ind from run_minimal, run_loop_minimal.

(** A traversal step over logging states whose calls follow the
    protocol for [v]. *)
Definition logs_run {St : Type} (v : value) (r : @reader (St * list call))
    : Prop :=
  ∀ p s log, ∃ calls,
    (r p (s, log)).2.2 = log ++ calls ∧ run p v (r p (s, log)).1 calls.

(** ** NodeReadSkip where there is nothing to skip *)

(** The tokens after which [read] returns to its caller whatever the
    callback answers: Value and the two end tokens. *)
Definition closing_tok (tok : ReaderToken) : bool :=
  match tok with
  | TokenValue | TokenEndNode | TokenEndArray => true
  | _ => false
  end.

(** The callback [fn] with [NodeReadSkip] turned into nil on those tokens. *)
Definition hush {St : Type} (fn : ReadFun St) : ReadFun St :=
  λ path tok arg s,
    let r := fn path tok arg s in
    (match r.1 with
     | Some NodeReadSkip => if closing_tok tok then None else r.1
     | e => e
     end, r.2).

(** Two results with the same state, and the same error up to nil on one
    side for [NodeReadSkip] on the other. *)
Definition skip_eq {St : Type} (r1 r2 : option error * St) : Prop :=
  r1.2 = r2.2 ∧ (r1.1 = r2.1 ∨ (r1.1 = None ∧ r2.1 = Some NodeReadSkip)).

(** ** After a skipped key or position *)

(** A Key or Index token that the callback answered with [NodeReadSkip]. *)
Definition key_skipped (c : call) : Prop :=
  call_res c = Some NodeReadSkip ∧
  (call_tok c = TokenKey ∨ call_tok c = TokenIndex).

(** The call after the [i]-th call [c] of [calls] is made at the path of
    [c], by the same map or slice: the next key or position, or the end. *)
Definition stays_on (calls : list call) (i : nat) (c : call) : Prop :=
  ∃ c', calls !! S i = Some c' ∧ call_path c' = call_path c ∧
        parent_tok (call_tok c').

(** A callback that skips the value under every key. *)
Definition skip_keys : ReadFun unit :=
  λ _ tok _ s, (if decide (tok = TokenKey) then Some NodeReadSkip else None, s).

(** ** Paths into a document *)

(** The value the path [p] leads to from [v], as Go indexes: a string
    segment indexes a map, an integer segment a slice. *)
Fixpoint value_at (v : value) (p : list value) : option value :=
  match p with
  | [] => Some v
  | seg :: q =>
      match v, seg with
      | VNode nc, VStr k =>
          match node_get k nc with
          | Some x => value_at x q
          | None => None
          end
      | VArr sc, VInt i =>
          if (0 <=? i)%Z then
            match sc !! Z.to_nat i with
            | Some x => value_at x q
            | None => None
            end
          else None
      | _, _ => None
      end
  end.

(** The call [c] is about the document [r]: its path leads to a value of
    [r], and the token and its argument fit that value: a map for the
    tokens of a map, with one of its keys for a Key token; a slice for the
    tokens of a slice, with one of its positions for an Index token; for a
    Value token, the value itself, which is neither a map nor a slice. *)
Definition call_about (r : value) (c : call) : Prop :=
  ∃ w, value_at r (call_path c) = Some w ∧
    match call_tok c with
    | TokenValue => opened w = None ∧ call_arg c = w
    | TokenNode | TokenEndNode => (∃ nc, w = VNode nc) ∧ call_arg c = VNull
    | TokenArray | TokenEndArray => (∃ sc, w = VArr sc) ∧ call_arg c = VNull
    | TokenKey =>
        ∃ nc k, w = VNode nc ∧ call_arg c = VStr k ∧ k ∈ node_keys nc
    | TokenIndex =>
        ∃ sc (i : nat), w = VArr sc ∧ call_arg c = VInt (Z.of_nat i) ∧
                        (i < length sc)%nat
    end.

(** ** Start tokens and their end tokens *)

(** Every start token of [calls] that the callback answered with nil is
    followed, later in [calls], by its end token at the same path. *)
Definition closes (calls : list call) : Prop :=
  ∀ i c stop,
    calls !! i = Some c →
    call_res c = None →
    matching_end (call_tok c) = Some stop →
    ∃ j c', (i < j)%nat ∧ calls !! j = Some c' ∧
            call_tok c' = stop ∧ call_path c' = call_path c.

(** ** The scalars, as they are delivered *)

(** The paths of the Value tokens of [calls], in order. *)
Definition value_paths (calls : list call) : list (list value) :=
  call_path <$> filter (λ c, call_tok c = TokenValue) calls.

(** * Properties *)

(** ** Induction on values *)

(** The induction principle with hypotheses for the values nested in a map
    and in a slice. *)
Lemma value_nested_ind (P : value → Prop) :
  (∀ nc, Forall (λ kv, P kv.2) nc → P (VNode nc)) →
  (∀ sc, Forall P sc → P (VArr sc)) →
  (∀ s, P (VStr s)) →
  (∀ i, P (VInt i)) →
  (∀ b, P (VBool b)) →
  P VNull →
  (∀ t, P (VOther t)) →
  ∀ v, P v.
Proof.
  intros Hnode Harr Hstr Hint Hbool Hnull Hother.
  fix IH 1. intros [nc|sc|s|i|b| |t].
  - apply Hnode. induction nc as [|[k x] nc IHnc]; constructor; [apply IH|exact IHnc].
  - apply Harr. induction sc as [|x sc IHsc]; constructor; [apply IH|exact IHsc].
  - apply Hstr.
  - apply Hint.
  - apply Hbool.
  - exact Hnull.
  - apply Hother.
Qed.

(** ** Maps as entry lists *)

Lemma node_get_Some_elem k v (n : Node) : node_get k n = Some v → (k, v) ∈ n.
Proof.
  induction n as [|[k' v'] n IH]; simpl; [done|].
  destruct (String.eqb_spec k' k) as [->|Hne].
  - intros [= ->]. left.
  - intros H. right. auto.
Qed.

Lemma node_get_None k (n : Node) : node_get k n = None ↔ k ∉ node_keys n.
Proof.
  unfold node_keys. induction n as [|[k' v'] n IH]; simpl.
  - split; [intros _; apply not_elem_of_nil|done].
  - rewrite not_elem_of_cons.
    destruct (String.eqb_spec k' k) as [->|Hne].
    + split; [done|]. by intros [? _].
    + rewrite IH. split; [by intros ?; split; [apply not_eq_sym|]|by intros [_ ?]].
Qed.

Lemma node_get_elem_NoDup k v (n : Node) :
  NoDup (node_keys n) → (k, v) ∈ n → node_get k n = Some v.
Proof.
  unfold node_keys. induction n as [|[k' v'] n IH]; simpl.
  - intros _ H. by apply elem_of_nil in H.
  - rewrite NoDup_cons. intros [Hk' Hnd] [[= -> ->]|Hin]%elem_of_cons.
    + by rewrite String.eqb_refl.
    + destruct (String.eqb_spec k' k) as [->|Hne]; [|by apply IH].
      destruct Hk'. apply list_elem_of_fmap. by exists (k, v).
Qed.

Lemma node_index_elem_or_null (n : Node) k :
  node_index n k = VNull ∨ (k, node_index n k) ∈ n.
Proof.
  unfold node_index. destruct (node_get k n) as [v|] eqn:H; simpl; [|by left].
  right. by apply node_get_Some_elem.
Qed.

(** ** Well-formed values, and values that stand for one document *)

Lemma wf_node nc :
  wf (VNode nc) = true ↔
  NoDup (node_keys nc) ∧ Forall (λ kv, wf kv.2 = true) nc.
Proof.
  simpl. rewrite andb_true_iff, bool_decide_eq_true.
  apply and_iff_compat_l.
  induction nc as [|[k x] nc IH]; simpl.
  - split; [constructor|done].
  - rewrite andb_true_iff, Forall_cons, IH. done.
Qed.

Lemma wf_arr sc : wf (VArr sc) = true ↔ Forall (λ x, wf x = true) sc.
Proof.
  simpl. induction sc as [|x sc IH]; simpl.
  - split; [constructor|done].
  - rewrite andb_true_iff, Forall_cons, IH. done.
Qed.

Lemma same_doc_node n1 n2 :
  same_doc (VNode n1) (VNode n2) = true ↔
  length n1 = length n2 ∧
  Forall (λ kv, ∃ y, node_get kv.1 n2 = Some y ∧ same_doc kv.2 y = true) n1.
Proof.
  simpl. rewrite andb_true_iff, Nat.eqb_eq.
  apply and_iff_compat_l.
  induction n1 as [|[k x] n1 IH]; simpl.
  - split; [constructor|done].
  - rewrite andb_true_iff, Forall_cons, IH. simpl.
    apply and_iff_compat_r.
    destruct (node_get k n2) as [y|].
    + split; [by exists y|]. by intros (? & [= <-] & ?).
    + split; [done|]. by intros (? & [=] & _).
Qed.

Lemma same_doc_arr a1 a2 :
  same_doc (VArr a1) (VArr a2) = true ↔
  Forall2 (λ x y, same_doc x y = true) a1 a2.
Proof.
  simpl. revert a2. induction a1 as [|x a1 IH]; intros [|y a2]; simpl.
  - split; [constructor|done].
  - split; [done|inversion 1].
  - split; [done|inversion 1].
  - rewrite andb_true_iff, IH, Forall2_cons. done.
Qed.

(** Entries of a map without repeated keys whose keys all occur in a map
    of the same size cover the keys of that map. *)
Lemma node_keys_covered (n1 n2 : Node) :
  NoDup (node_keys n1) →
  length n1 = length n2 →
  node_keys n1 ⊆ node_keys n2 →
  node_keys n2 ⊆ node_keys n1.
Proof.
  intros Hnd Hlen Hsub.
  assert (node_keys n1 ⊆+ node_keys n2) as Hms by by apply NoDup_submseteq.
  apply submseteq_length_Permutation in Hms.
  - intros k Hk. by rewrite Hms.
  - unfold node_keys. by rewrite !length_fmap, Hlen.
Qed.

(** ** Link recognition: [IsLink], [LinkCast] *)

(** A map of one entry whose ["/"] key holds a string is that entry. *)
Lemma IsLink_shape v :
  IsLink v = true ↔ ∃ s, v = VNode [(LinkKey, VStr s)].
Proof.
  split.
  - destruct v as [vn| | | | | |]; try done. simpl.
    destruct vn as [|[k x] [|? ?]]; try done.
    + simpl. destruct (String.eqb_spec k LinkKey) as [->|]; [|done].
      destruct x; try done. eauto.
    + simpl. by rewrite andb_false_r.
  - by intros [s ->].
Qed.

(** C5: [IsLink v] holds exactly when [v] is a Node of one entry whose key is
    ["/"] and whose value is a string; [LinkCast v] then returns a link
    holding that one entry together with [true], and otherwise returns the
    zero link together with [false]. *)
Theorem IsLink_LinkCast_spec (v : value) :
  (IsLink v = true ↔
     ∃ vn, v = VNode vn ∧ length vn = 1%nat ∧ node_keys vn = [LinkKey] ∧
           ∃ s, node_get LinkKey vn = Some (VStr s)) ∧
  ((LinkCast v).2 = IsLink v) ∧
  (∀ s, v = VNode [(LinkKey, VStr s)] → LinkCast v = ([(LinkKey, VStr s)], true)) ∧
  (IsLink v = false → LinkCast v = ([], false)).
Proof.
  repeat split.
  - intros [s ->]%IsLink_shape. exists [(LinkKey, VStr s)]. eauto.
  - intros (vn & -> & Hlen & Hkeys & s & Hget).
    destruct vn as [|[k x] [|? ?]]; try done.
    simpl in *. injection Hkeys as ->. simpl in Hget. injection Hget as ->. done.
  - unfold LinkCast. by destruct (IsLink v).
  - by intros s ->.
  - unfold LinkCast. by intros ->.
Qed.

Lemma IsLink_LinkCast_spec_witness :
  IsLink (VNode [("/", VStr "Qm1")]) = true ∧
  LinkCast (VNode [("/", VStr "Qm1")]) = ([("/", VStr "Qm1")], true) ∧
  LinkCast (VNode [("/", VInt 7)]) = ([], false).
Proof.
  pose proof (IsLink_LinkCast_spec (VNode [("/", VStr "Qm1")])) as (H1 & _ & H3 & _).
  pose proof (IsLink_LinkCast_spec (VNode [("/", VInt 7)])) as (_ & _ & _ & H4).
  split; [|split].
  - apply H1. exists [("/", VStr "Qm1")]. repeat split; eauto.
  - by apply H3.
  - by apply H4.
Defined.

(** ** [LinkStr] and [Hash] *)

Section hash_properties.
Context {Multihash E : Type}.
Variable FromB58String : string → Multihash + E.

(** C6: [Hash] fails when the string under ["/"] is empty, with the error it
    makes itself; on any other string it returns what the identifier decoder
    returns: the decoded identifier, or the decoder's error, which is not the
    error for an absent identifier. *)
Theorem Hash_spec (l : Link) :
  (LinkStr l = "" → Hash FromB58String l = inr ErrNoHashInLink) ∧
  (∀ h, LinkStr l ≠ "" → FromB58String (LinkStr l) = inl h →
        Hash FromB58String l = inl h) ∧
  (∀ e, LinkStr l ≠ "" → FromB58String (LinkStr l) = inr e →
        Hash FromB58String l = inr (ErrDecode e) ∧
        Hash FromB58String l ≠ inr ErrNoHashInLink).
Proof.
  unfold Hash. split; [|split].
  - by intros ->.
  - intros h Hne Hdec.
    destruct (String.eqb_spec (LinkStr l) ""); [done|]. by rewrite Hdec.
  - intros e Hne Hdec.
    destruct (String.eqb_spec (LinkStr l) ""); [done|]. by rewrite Hdec.
Qed.

(** C9: the node [{"/": ""}] satisfies the link predicate, [LinkCast] yields
    its link, [LinkStr] of that link is the empty string and [Hash] fails
    with the error for an absent identifier. *)
Theorem IsLink_empty_Hash_fails :
  IsLink (VNode [("/", VStr "")]) = true ∧
  LinkCast (VNode [("/", VStr "")]) = ([("/", VStr "")], true) ∧
  LinkStr (LinkCast (VNode [("/", VStr "")])).1 = "" ∧
  Hash FromB58String (LinkCast (VNode [("/", VStr "")])).1 = inr ErrNoHashInLink.
Proof. done. Qed.
End hash_properties.

Lemma Hash_spec_witness :
  Hash sample_decoder [("/", VInt 7)] = inr ErrNoHashInLink ∧
  Hash sample_decoder [("/", VStr "Qm1")] = inl 1%nat ∧
  Hash sample_decoder [("/", VStr "zz")] = inr (ErrDecode "bad identifier").
Proof.
  split; [|split].
  - by apply (Hash_spec sample_decoder [("/", VInt 7)]).
  - by apply (Hash_spec sample_decoder [("/", VStr "Qm1")]).
  - by apply (Hash_spec sample_decoder [("/", VStr "zz")]).
Defined.

(** ** [Equal] *)

(** The induction principle with hypotheses for the values nested in a map
    object and in a slice. *)
Lemma gvalue_nested_ind (P : gvalue → Prop) :
  P GNilNode →
  (∀ a nc, Forall (λ kv, P kv.2) nc → P (GNode a nc)) →
  P GNilArr →
  (∀ a sc, Forall P sc → P (GArr a sc)) →
  (∀ s, P (GStr s)) →
  (∀ i, P (GInt i)) →
  (∀ b, P (GBool b)) →
  P GNull →
  (∀ bits, P (GFloat bits)) →
  ∀ v, P v.
Proof.
  intros Hnil Hnode Hnila Harr Hstr Hint Hbool Hnull Hfloat.
  fix IH 1. intros [|a nc| |a sc|s|i|b| |bits].
  - exact Hnil.
  - apply Hnode. induction nc as [|[k x] nc IHnc]; constructor; [apply IH|exact IHnc].
  - exact Hnila.
  - apply Harr. induction sc as [|x sc IHsc]; constructor; [apply IH|exact IHsc].
  - apply Hstr.
  - apply Hint.
  - apply Hbool.
  - exact Hnull.
  - apply Hfloat.
Qed.

Lemma gnode_get_Some_elem k v (nc : list (string * gvalue)) :
  gnode_get k nc = Some v → (k, v) ∈ nc.
Proof.
  induction nc as [|[k' v'] nc IH]; simpl; [done|].
  destruct (String.eqb_spec k' k) as [->|Hne].
  - intros [= ->]. left.
  - intros H. right. auto.
Qed.

Lemma gnode_get_elem_NoDup k v (nc : list (string * gvalue)) :
  NoDup nc.*1 → (k, v) ∈ nc → gnode_get k nc = Some v.
Proof.
  induction nc as [|[k' v'] nc IH]; simpl.
  - by intros _ ?%elem_of_nil.
  - intros [Hnotin Hnd]%NoDup_cons [[= -> ->]|Hin]%elem_of_cons.
    + by rewrite String.eqb_refl.
    + destruct (String.eqb_spec k' k) as [->|Hne]; [|auto].
      destruct Hnotin. apply list_elem_of_fmap. by exists (k, v).
Qed.

Lemma gwf_node a nc :
  gwf (GNode a nc) = true ↔ NoDup nc.*1 ∧ Forall (λ kv, gwf kv.2 = true) nc.
Proof.
  simpl. rewrite andb_true_iff, bool_decide_eq_true.
  apply and_iff_compat_l.
  induction nc as [|[k x] nc IH]; simpl.
  - split; [constructor|done].
  - rewrite andb_true_iff, Forall_cons, IH. done.
Qed.

Lemma gwf_arr a sc : gwf (GArr a sc) = true ↔ Forall (λ x, gwf x = true) sc.
Proof.
  simpl. induction sc as [|x sc IH]; simpl.
  - split; [constructor|done].
  - rewrite andb_true_iff, Forall_cons, IH. done.
Qed.

(** [reflect.DeepEqual] on two map objects and on two slices. *)
Lemma DeepEqual_node a1 n1 a2 n2 :
  DeepEqual (GNode a1 n1) (GNode a2 n2) = true ↔
  length n1 = length n2 ∧
  (a1 = a2 ∨
   Forall (λ kv, ∃ y, gnode_get kv.1 n2 = Some y ∧ DeepEqual kv.2 y = true) n1).
Proof.
  simpl. rewrite andb_true_iff, orb_true_iff, !Nat.eqb_eq.
  apply and_iff_compat_l, or_iff_compat_l.
  induction n1 as [|[k x] n1 IH]; simpl.
  - split; [constructor|done].
  - rewrite andb_true_iff, Forall_cons, IH. simpl.
    apply and_iff_compat_r.
    destruct (gnode_get k n2) as [y|].
    + split; [by exists y|]. by intros (? & [= <-] & ?).
    + split; [done|]. by intros (? & [=] & _).
Qed.

Lemma DeepEqual_arr a1 s1 a2 s2 :
  DeepEqual (GArr a1 s1) (GArr a2 s2) = true ↔
  length s1 = length s2 ∧
  (a1 = a2 ∨ Forall2 (λ x y, DeepEqual x y = true) s1 s2).
Proof.
  simpl. rewrite andb_true_iff, orb_true_iff, !Nat.eqb_eq.
  apply and_iff_compat_l, or_iff_compat_l.
  revert s2. induction s1 as [|x s1 IH]; intros [|y s2]; simpl.
  - split; [constructor|done].
  - split; [done|inversion 1].
  - split; [done|inversion 1].
  - rewrite andb_true_iff, IH, Forall2_cons. done.
Qed.

Lemma float_eq_sym b1 b2 : float_eq b1 b2 = float_eq b2 b1.
Proof.
  unfold float_eq. rewrite (Z.eqb_sym b1 b2).
  by destruct (is_NaN b1), (is_NaN b2), (b2 =? b1)%Z, (is_zero b1), (is_zero b2).
Qed.

(** Keys without repetition that all occur among as many keys are all of
    them. *)
Lemma keys_covered (k1 k2 : list string) :
  NoDup k1 → length k1 = length k2 → k1 ⊆ k2 → k2 ⊆ k1.
Proof.
  intros Hnd Hlen Hsub.
  assert (k1 ⊆+ k2) as Hms by by apply NoDup_submseteq.
  apply submseteq_length_Permutation in Hms; [|lia].
  intros k Hk. by rewrite Hms.
Qed.

Lemma DeepEqual_sym_true v1 :
  ∀ v2, gwf v1 = true → gwf v2 = true →
  DeepEqual v1 v2 = true → DeepEqual v2 v1 = true.
Proof.
  induction v1 as [|a1 n1 IH| |a1 s1 IH|s|i|b| |f] using gvalue_nested_ind;
    intros [|a2 n2| |a2 s2|s2|i2|b2| |f2] Hwf1 Hwf2 Heq; try done.
  - apply gwf_node in Hwf1 as [Hnd1 Hwf1], Hwf2 as [Hnd2 Hwf2].
    apply DeepEqual_node in Heq as [Hlen [->|Hall]];
      apply DeepEqual_node; (split; [done|]); [by left|right].
    rewrite Forall_forall in IH, Hwf1, Hwf2, Hall.
    assert (n1.*1 ⊆ n2.*1) as Hsub.
    { intros k [[k' x] [-> Hin]]%list_elem_of_fmap.
      destruct (Hall _ Hin) as (y & Hy & _). simpl in *.
      apply gnode_get_Some_elem in Hy.
      apply list_elem_of_fmap. by exists (k', y). }
    assert (n2.*1 ⊆ n1.*1) as Hsup.
    { apply keys_covered; [done| |done]. by rewrite !length_fmap. }
    apply Forall_forall. intros [k y] Hin. simpl.
    assert (k ∈ n1.*1) as [[k' x] [Hk Hx]]%list_elem_of_fmap.
    { apply Hsup, list_elem_of_fmap. by exists (k, y). }
    simpl in Hk. subst k'. exists x. split; [by apply gnode_get_elem_NoDup|].
    destruct (Hall _ Hx) as (y' & Hy' & Hxy). simpl in *.
    rewrite (gnode_get_elem_NoDup _ _ _ Hnd2 Hin) in Hy'.
    injection Hy' as <-.
    apply (IH _ Hx); [apply (Hwf1 _ Hx)|apply (Hwf2 _ Hin)|done].
  - apply gwf_arr in Hwf1, Hwf2.
    apply DeepEqual_arr in Heq as [Hlen [->|Hall]];
      apply DeepEqual_arr; (split; [done|]); [by left|right].
    clear Hlen. revert s2 Hwf2 Hall.
    induction s1 as [|x s1 IHs]; intros s2 Hwf2 Hall;
      inversion Hall as [|? y ? r2 Hxy Hrest]; subst; constructor.
    + apply Forall_cons in IH as [IHx _], Hwf1 as [Hx _], Hwf2 as [Hy _]. auto.
    + apply Forall_cons in IH as [_ IHr], Hwf1 as [_ Hr1], Hwf2 as [_ Hr2]. auto.
  - simpl in *. by rewrite String.eqb_sym.
  - simpl in *. by rewrite Z.eqb_sym.
  - simpl in *. by destruct b, b2.
  - simpl in *. by rewrite float_eq_sym.
Qed.

Lemma DeepEqual_sym v1 v2 :
  gwf v1 = true → gwf v2 = true → DeepEqual v1 v2 = DeepEqual v2 v1.
Proof.
  intros H1 H2.
  destruct (DeepEqual v1 v2) eqn:E12, (DeepEqual v2 v1) eqn:E21; try done.
  - apply DeepEqual_sym_true in E12; [congruence|done..].
  - apply DeepEqual_sym_true in E21; [congruence|done..].
Qed.

(** What is deeply equal to a string is that string. *)
Lemma DeepEqual_str s y : DeepEqual (GStr s) y = true → y = GStr s.
Proof. destruct y; try done. simpl. by intros ->%String.eqb_eq. Qed.

Lemma DeepEqual_str_r x s : DeepEqual x (GStr s) = true → x = GStr s.
Proof. destruct x; try done. simpl. by intros ->%String.eqb_eq. Qed.

(** *** What the package sees of a map object *)

Lemma erase_node a nc :
  erase (GNode a nc) = VNode (prod_map id erase <$> nc).
Proof.
  simpl. f_equal. induction nc as [|[k x] nc IH]; [done|].
  rewrite fmap_cons, <-IH. reflexivity.
Qed.

Lemma node_get_erase k (nc : list (string * gvalue)) :
  node_get k (prod_map id erase <$> nc) = erase <$> gnode_get k nc.
Proof.
  induction nc as [|[k' x] nc IH]; simpl; [done|].
  by destruct (String.eqb k' k).
Qed.

Lemma erase_str g s : erase g = VStr s ↔ g = GStr s.
Proof. split; [|by intros ->]. destruct g; try done. by intros [= ->]. Qed.

Lemma link_entries_Some a nc :
  link_entries (Some (a, nc)) = prod_map id erase <$> nc.
Proof. unfold link_entries, link_value. by rewrite erase_node. Qed.

Lemma link_entries_get k (l : LinkObj) s :
  node_get k (link_entries l) = Some (VStr s) ↔
  ∃ a nc, l = Some (a, nc) ∧ gnode_get k nc = Some (GStr s).
Proof.
  destruct l as [[a nc]|].
  - rewrite link_entries_Some, node_get_erase. split.
    + destruct (gnode_get k nc) as [x|] eqn:Hget; [|done]. simpl.
      intros [= ->%erase_str]. by exists a, nc.
    + by intros (? & ? & [= <- <-] & ->).
  - split; [done|]. by intros (? & ? & [=] & _).
Qed.

(** *** Values of one store *)

Lemma objects_node a nc :
  objects (GNode a nc) = GNode a nc :: (nc.*2 ≫= objects).
Proof.
  simpl. f_equal. induction nc as [|[k x] nc IH]; [done|].
  rewrite fmap_cons, bind_cons. by rewrite <-IH.
Qed.

Lemma objects_arr a sc :
  objects (GArr a sc) = GArr a sc :: (sc ≫= objects).
Proof.
  reflexivity.
Qed.

Lemma coherent_spec vs :
  coherent vs = true ↔
  ∀ o1 o2, o1 ∈ vs ≫= objects → o2 ∈ vs ≫= objects →
           same_object o1 o2 = true → o1 = o2.
Proof.
  unfold coherent. rewrite forallb_forall. split.
  - intros H o1 o2 H1 H2 Hsame.
    apply list_elem_of_In, H in H1. rewrite forallb_forall in H1.
    apply list_elem_of_In, H1 in H2. rewrite Hsame in H2.
    by apply bool_decide_eq_true in H2.
  - intros H o1 H1%list_elem_of_In. apply forallb_forall.
    intros o2 H2%list_elem_of_In.
    destruct (same_object o1 o2) eqn:Hsame; [|done]. simpl.
    apply bool_decide_eq_true. by apply H.
Qed.

(** Two links of one store at one address are one link. *)
Lemma coherent_links (l1 l2 : LinkObj) a n1 n2 :
  coherent [link_value l1; link_value l2] = true →
  l1 = Some (a, n1) → l2 = Some (a, n2) → n1 = n2.
Proof.
  intros Hcoh -> ->. rewrite coherent_spec in Hcoh.
  assert (GNode a n1 = GNode a n2) as [= ->]; [|done].
  apply Hcoh.
  - simpl link_value. rewrite bind_cons, objects_node. left.
  - simpl link_value. rewrite !bind_cons, (objects_node a n2).
    apply elem_of_app. right. left.
  - simpl. apply Nat.eqb_refl.
Qed.

(** C8: [Equal] is reflexive, a link being the same map object as itself;
    it is symmetric on maps that repeat no key, as every Go map does; and
    two links whose ["/"] keys hold different strings, necessarily two map
    objects of the store, are not equal. *)
Theorem Equal_refl_sym_payload :
  (∀ l : LinkObj, Equal l l = true) ∧
  (∀ l1 l2 : LinkObj,
     gwf (link_value l1) = true → gwf (link_value l2) = true →
     Equal l1 l2 = Equal l2 l1) ∧
  (∀ (l1 l2 : LinkObj) s1 s2,
     coherent [link_value l1; link_value l2] = true →
     node_get LinkKey (link_entries l1) = Some (VStr s1) →
     node_get LinkKey (link_entries l2) = Some (VStr s2) →
     s1 ≠ s2 → Equal l1 l2 = false).
Proof.
  split; [|split].
  - intros [[a nc]|]; [|done]. apply DeepEqual_node. by split; [|left].
  - intros l1 l2 H1 H2. by apply DeepEqual_sym.
  - intros l1 l2 s1 s2 Hcoh (a1 & n1 & -> & H1)%link_entries_get
      (a2 & n2 & -> & H2)%link_entries_get Hne.
    destruct (Equal (Some (a1, n1)) (Some (a2, n2))) eqn:Heq; [|done].
    apply DeepEqual_node in Heq as [_ [->|Hall]].
    + rewrite (coherent_links _ _ a2 n1 n2 Hcoh eq_refl eq_refl) in H1.
      congruence.
    + rewrite Forall_forall in Hall.
      destruct (Hall _ (gnode_get_Some_elem _ _ _ H1)) as (y & Hy & Hxy).
      simpl in *. rewrite H2 in Hy. injection Hy as <-.
      simpl in Hxy. by apply String.eqb_eq in Hxy.
Qed.

Lemma Equal_refl_sym_payload_witness :
  Equal (Some (1, [("/", GStr "Qm1"); ("x", GFloat 9221120237041090560)]))
        (Some (1, [("/", GStr "Qm1"); ("x", GFloat 9221120237041090560)]))
    = true ∧
  Equal None None = true ∧
  Equal (Some (1, [("/", GStr "Qm1"); ("n", GInt 1)]))
        (Some (2, [("n", GInt 1); ("/", GStr "Qm1")])) =
  Equal (Some (2, [("n", GInt 1); ("/", GStr "Qm1")]))
        (Some (1, [("/", GStr "Qm1"); ("n", GInt 1)])) ∧
  Equal None (Some (1, [])) = Equal (Some (1, [])) None ∧
  Equal (Some (1, [("/", GStr "Qm1")])) (Some (2, [("/", GStr "Qm2")])) = false.
Proof.
  destruct Equal_refl_sym_payload as (Hrefl & Hsym & Hpay).
  split; [|split; [|split; [|split]]].
  - apply Hrefl.
  - apply Hrefl.
  - by apply Hsym.
  - by apply Hsym.
  - by apply (Hpay _ _ "Qm1" "Qm2").
Defined.

(** ** [Links] *)

(** The walker of the spec reaches the visitor's state through the visitor
    only. *)
Lemma walk_preserves {St : Type} (visit : WalkFunc St) (root : Node)
    (P : St → Prop) :
  (∀ r curr path err s, P s → P (visit r curr path err s).2) →
  ∀ v keys s, P s → P (walk visit root v keys s).2.
Proof.
  intros Hvisit.
  induction v as [nc IH|sc IH|s'|i|b| |t] using value_nested_ind;
    intros keys s Hs; try done.
  - simpl.
    pose proof (Hvisit root nc (String.concat "/" keys) None s Hs) as Hs1.
    destruct (visit root nc (String.concat "/" keys) None s) as [[e|] s1];
      [done|]. simpl in Hs1.
    clear Hs. revert s1 Hs1.
    induction nc as [|[k x] nc IHnc]; intros s1 Hs1; [done|].
    apply Forall_cons in IH as [IHx IHrest]. simpl in IHx.
    specialize (IHx (keys ++ [k]) s1 Hs1).
    destruct (walk visit root x (keys ++ [k]) s1) as [[e|] s2]; [done|].
    by apply IHnc.
  - simpl. generalize 0%nat. revert s Hs.
    induction sc as [|x sc IHsc]; intros s Hs i; [done|].
    apply Forall_cons in IH as [IHx IHrest].
    specialize (IHx (keys ++ [pretty i]) s Hs).
    destruct (walk visit root x (keys ++ [pretty i]) s) as [[e|] s2]; [done|].
    by apply IHsc.
Qed.

Lemma Walk_visits_only {St : Type} : visits_only (@Walk St).
Proof.
  intros n visit s0 P Hs0 Hvisit. unfold Walk. by apply walk_preserves.
Qed.

(** The visitor of [Links] stores nothing but links. *)
Lemma links_visit_stores_links r curr path err (m : gmap string Link) :
  map_Forall (λ _ l, IsLink (VNode l) = true) m →
  map_Forall (λ _ l, IsLink (VNode l) = true) (links_visit r curr path err m).2.
Proof.
  intros Hm. unfold links_visit. destruct err as [e|]; [done|].
  unfold LinkCast. destruct (IsLink (VNode curr)) eqn:Hlink; [|done].
  apply IsLink_shape in Hlink as [s [= ->]]. simpl.
  by apply map_Forall_insert_2.
Qed.

(** C10: whatever walker [Links] runs, every value of the mapping it
    returns satisfies the link predicate: it is one entry under ["/"] holding
    a string. *)
Theorem Links_values_are_links
    (walker : Node → WalkFunc (gmap string Link) → gmap string Link →
              option error * gmap string Link)
    (n : Node) (path : string) (l : Link) :
  visits_only walker →
  Links walker n !! path = Some l →
  IsLink (VNode l) = true ∧ ∃ s, l = [(LinkKey, VStr s)].
Proof.
  intros Hwalker Hl.
  assert (map_Forall (λ _ l, IsLink (VNode l) = true) (Links walker n)) as Hall.
  { unfold Links. apply Hwalker.
    - apply map_Forall_empty.
    - intros. by apply links_visit_stores_links. }
  pose proof (Hall _ _ Hl) as Hlink. split; [done|].
  apply IsLink_shape in Hlink as [s [= ->]]. eauto.
Qed.

Lemma Links_values_are_links_witness :
  IsLink (VNode [("/", VStr "Qm1")]) = true ∧
  ∃ s, [("/", VStr "Qm1")] = [(LinkKey, VStr s)].
Proof.
  apply (Links_values_are_links Walk
           [("foo", VNode [("quux", VNode [("/", VStr "Qm1")])])] "foo/quux").
  - apply Walk_visits_only.
  - vm_compute. reflexivity.
Defined.




(** ** Unfolding [read] *)
Section read_equations.
Context {St : Type}.
Variable fn : ReadFun St.

(** [read] on a map, as the code reads: the start token; the loop over the
    sorted keys, each key announced and [nc[k]] traversed under the path
    extended by the key; the end token. *)
Lemma read_node nc p s :
  read fn (VNode nc) p s =
  and_then (fn p TokenNode VNull s) (λ s1,
  and_then (read_loop fn TokenKey p (node_items fn nc) s1) (λ s2,
  fn p TokenEndNode VNull s2)).
Proof.
  cbn [read]. unfold and_then.
  destruct (fn p TokenNode VNull s) as [[e|] s1]; [done|].
  set (at_key := fix at_key (kvs : list (string * value)) (k : string) : reader := _).
  assert (∀ k, at_key nc k = read fn (node_index nc k)) as Hat.
  { intros k. unfold node_index. induction nc as [|[k' v] nc IH]; [done|].
    simpl. destruct (String.eqb k' k); [done|apply IH]. }
  unfold node_items.
  assert (((λ k, (VStr k, at_key nc k)) <$> sort_strings (node_keys nc)) =
          ((λ k, (VStr k, read fn (node_index nc k))) <$> sort_strings (node_keys nc))) as ->.
  { apply list_fmap_ext. intros _ k _. by rewrite Hat. }
  destruct (read_loop _ _ _ _ _) as [[e|] s2]; [done|].
  by destruct (fn p TokenEndNode VNull s2) as [[e|] s3].
Qed.

(** [read] on a slice: the start token; the loop over the elements, each
    position announced and the element traversed under the path extended by
    the position; the end token. *)
Lemma read_array sc p s :
  read fn (VArr sc) p s =
  and_then (fn p TokenArray VNull s) (λ s1,
  and_then (read_loop fn TokenIndex p (array_items fn sc) s1) (λ s2,
  fn p TokenEndArray VNull s2)).
Proof.
  cbn [read]. unfold and_then.
  destruct (fn p TokenArray VNull s) as [[e|] s1]; [done|].
  set (elems := fix elems (vs : list value) (i : nat) : list (value * reader) := _).
  assert (∀ i, elems sc i = imap (λ j v, (VInt (Z.of_nat (i + j)), read fn v)) sc) as Hel.
  { induction sc as [|v sc IH]; intros i; [done|].
    simpl. rewrite Nat.add_0_r. f_equal. rewrite IH.
    apply imap_ext. intros j x _. simpl. by rewrite Nat.add_succ_r. }
  rewrite Hel. unfold array_items. simpl.
  destruct (read_loop _ _ _ _ _) as [[e|] s2]; [done|].
  by destruct (fn p TokenEndArray VNull s2) as [[e|] s3].
Qed.

(** [read] on anything else: the Value token, and what the callback
    returns. *)
Lemma read_scalar v p s :
  (∀ nc, v ≠ VNode nc) → (∀ sc, v ≠ VArr sc) →
  read fn v p s = fn p TokenValue v s.
Proof.
  intros Hn Ha.
  destruct v as [nc|sc| | | | |]; [by destruct (Hn nc)|by destruct (Ha sc)|..];
    simpl; unfold read_value; by destruct (fn p TokenValue _ s) as [[e|] s1].
Qed.

(** A map or a slice whose start token the callback answers with an error:
    [read] returns that error after this one call. *)
Lemma read_start_stops v tok p s e :
  start_token v = Some tok →
  (fn p tok VNull s).1 = Some e →
  read fn v p s = (Some e, (fn p tok VNull s).2).
Proof.
  destruct v as [nc|sc| | | | |]; intros [= <-] He;
    [rewrite read_node|rewrite read_array];
    destruct (fn p _ VNull s) as [e' s1]; simpl in *; by subst e'.
Qed.
End read_equations.

(** ** Related callbacks give related traversals *)

Lemma imap_Forall2 {A1 A2 B1 B2 : Type} (Q : A1 → A2 → Prop)
    (P : B1 → B2 → Prop) (f : nat → A1 → B1) (g : nat → A2 → B2) l1 l2 :
  Forall2 Q l1 l2 →
  (∀ i x y, Q x y → P (f i x) (g i y)) →
  Forall2 P (imap f l1) (imap g l2).
Proof.
  intros Hl. revert f g.
  induction Hl as [|x y l1 l2 Hxy _ IH]; intros f g Hfg; [constructor|].
  simpl. constructor; [by apply Hfg|].
  apply IH. intros i. apply Hfg.
Qed.

Section read_sim.
Context {S1 S2 : Type}.
Variable R : S1 → S2 → Prop.
Variable f1 : ReadFun S1.
Variable f2 : ReadFun S2.

Hypothesis Hfn : ∀ p tok arg s1 s2,
  R s1 s2 → same_outcome R (f1 p tok arg s1) (f2 p tok arg s2).

Lemma and_then_sim r1 r2 k1 k2 :
  same_outcome R r1 r2 →
  (∀ s1 s2, R s1 s2 → same_outcome R (k1 s1) (k2 s2)) →
  same_outcome R (and_then r1 k1) (and_then r2 k2).
Proof.
  destruct r1 as [e1 s1], r2 as [e2 s2]. intros [He HR] Hk. simpl in *. subst e2.
  destruct e1; [done|]. by apply Hk.
Qed.

Lemma read_loop_sim tok p (items1 : list (value * @reader S1))
    (items2 : list (value * @reader S2)) :
  Forall2 (λ i1 i2, i1.1 = i2.1 ∧
             ∀ q s1 s2, R s1 s2 → same_outcome R (i1.2 q s1) (i2.2 q s2))
          items1 items2 →
  ∀ s1 s2, R s1 s2 →
  same_outcome R (read_loop f1 tok p items1 s1) (read_loop f2 tok p items2 s2).
Proof.
  induction 1 as [|[seg r1] [seg' r2] items1 items2 [Hseg Hsub] _ IH];
    intros s1 s2 Hs; [done|].
  simpl in Hseg, Hsub. subst seg'. simpl.
  destruct (Hfn p tok seg s1 s2 Hs) as [He Hs1].
  destruct (f1 p tok seg s1) as [e1 t1], (f2 p tok seg s2) as [e2 t2].
  simpl in *. subst e2. destruct e1 as [[]|]; try done; [by apply IH|].
  destruct (Hsub (p ++ [seg]) t1 t2 Hs1) as [He Hs2].
  destruct (r1 (p ++ [seg]) t1) as [e1 u1], (r2 (p ++ [seg]) t2) as [e2 u2].
  simpl in *. subst e2. destruct e1 as [[]|]; try done; by apply IH.
Qed.

Lemma read_sim v :
  ∀ p s1 s2, R s1 s2 → same_outcome R (read f1 v p s1) (read f2 v p s2).
Proof.
  induction v as [nc IH|sc IH|s|i|b| |t] using value_nested_ind;
    intros p s1 s2 Hs.
  3-7: rewrite !read_scalar by done; by apply Hfn.
  - rewrite !read_node.
    apply and_then_sim; [by apply Hfn|]. intros t1 t2 Ht.
    apply and_then_sim; [|intros; by apply Hfn].
    apply read_loop_sim; [|done].
    unfold node_items. apply Forall2_fmap, Forall_Forall2_diag, Forall_forall.
    intros k _. split; [done|]. simpl.
    destruct (node_index_elem_or_null nc k) as [->|Hin].
    + intros q u1 u2 Hu. rewrite !read_scalar by done. by apply Hfn.
    + rewrite Forall_forall in IH. apply (IH _ Hin).
  - rewrite !read_array.
    apply and_then_sim; [by apply Hfn|]. intros t1 t2 Ht.
    apply and_then_sim; [|intros; by apply Hfn].
    apply read_loop_sim; [|done].
    unfold array_items.
    apply (imap_Forall2 (λ x y, x = y ∧
             ∀ q u1 u2, R u1 u2 → same_outcome R (read f1 x q u1) (read f2 x q u2))).
    + apply Forall_Forall2_diag. eapply Forall_impl; [exact IH|]. by intros x Hx.
    + by intros i x y [<- Hx].
Qed.
End read_sim.

(** ** The calls of a traversal *)

Section own_args.
Implicit Types (p : list value) (tok : ReaderToken) (c : call).

Lemma own_args_app p tok l1 l2 :
  own_args p tok (l1 ++ l2) = own_args p tok l1 ++ own_args p tok l2.
Proof. unfold own_args. by rewrite filter_app, fmap_app. Qed.

Lemma own_args_own p tok arg res :
  own_args p tok [Call p tok arg res] = [arg].
Proof.
  unfold own_args. rewrite filter_cons_True by done. done.
Qed.

Lemma own_args_other_tok p tok tok' arg res :
  tok' ≠ tok → own_args p tok [Call p tok' arg res] = [].
Proof.
  intros Hne. unfold own_args. rewrite filter_cons_False; [done|].
  simpl. by intros [_ ?].
Qed.

Lemma own_args_below p tok seg calls :
  Forall (λ c, (p ++ [seg]) `prefix_of` call_path c) calls →
  own_args p tok calls = [].
Proof.
  intros Hall. unfold own_args.
  induction Hall as [|c calls [k Hc] _ IH]; [done|].
  rewrite filter_cons_False; [done|].
  intros [Hp _]. rewrite Hp in Hc.
  apply (f_equal length) in Hc. rewrite !length_app in Hc. simpl in Hc. lia.
Qed.
End own_args.

Lemma prefix_of_below (p : list value) seg calls :
  Forall (λ c, (p ++ [seg]) `prefix_of` call_path c) calls →
  Forall (λ c, p `prefix_of` call_path c) calls.
Proof.
  intros H. eapply Forall_impl; [exact H|].
  intros c Hc. etrans; [|exact Hc]. by apply prefix_app_r.
Qed.

Lemma calls_ok_nonstop p e calls :
  calls_ok p e calls → e = None ∨ e = Some NodeReadSkip → Forall nonstop calls.
Proof.
  intros [(pre & c & -> & Hres & Hpre) _] He.
  apply Forall_app. split; [done|]. constructor; [|done].
  unfold nonstop. by rewrite Hres.
Qed.

Section traced_runs.
Context {St : Type}.
Variable fn : ReadFun St.

Lemma traced_eq p tok arg s log :
  traced fn p tok arg (s, log) =
  ((fn p tok arg s).1,
   ((fn p tok arg s).2, log ++ [Call p tok arg (fn p tok arg s).1])).
Proof. done. Qed.

Lemma read_loop_calls tok p (items : list (value * reader)) :
  Forall (λ it, logs_calls it.2) items →
  ∀ s log, ∃ calls,
    (read_loop (traced fn) tok p items (s, log)).2.2 = log ++ calls ∧
    loop_calls_ok p tok items.*1
      (read_loop (traced fn) tok p items (s, log)).1 calls.
Proof.
  induction 1 as [|[seg sub] items Hsub _ IH]; intros s log.
  { exists []. simpl. rewrite app_nil_r. repeat split; done. }
  cbn [read_loop]. rewrite traced_eq.
  set (c0 := Call p tok seg (fn p tok seg s).1).
  assert (own_args p tok [c0] = [seg]) as Hown by apply own_args_own.
  assert (p `prefix_of` call_path c0) as Hp0 by done.
  destruct (fn p tok seg s) as [e0 s1] eqn:Hfn. simpl in c0.
  destruct e0 as [[| |m]|]; cbn [fst snd].
  - (* the callback stops on the child's token *)
    exists [c0]. simpl. repeat split; [by constructor|..|done].
    + exists [], c0. done.
    + rewrite Hown. by apply prefix_cons, prefix_nil.
  - (* the callback skips the child *)
    destruct (IH s1 (log ++ [c0])) as (calls & Hlog & Hpre & Hres & Hargs & Hfull).
    exists (c0 :: calls). rewrite Hlog, <-app_assoc. split; [done|].
    change (c0 :: calls) with ([c0] ++ calls).
    repeat split.
    + by constructor.
    + destruct (read_loop _ _ _ _ _).1 as [x|].
      * destruct Hres as (pre & c & -> & Hc & Hns).
        exists (c0 :: pre), c. split; [done|]. split; [done|].
        constructor; [by right|done].
      * constructor; [by right|done].
    + rewrite own_args_app, Hown. simpl. by apply prefix_cons.
    + intros He. rewrite own_args_app, Hown, (Hfull He). done.
  - exists [c0]. simpl. repeat split; [by constructor|..|done].
    + exists [], c0. done.
    + rewrite Hown. by apply prefix_cons, prefix_nil.
  - (* the child is traversed *)
    simpl in Hsub.
    destruct (Hsub (p ++ [seg]) s1 (log ++ [c0])) as (cs & Hlogs & Hoks).
    destruct (sub (p ++ [seg]) (s1, log ++ [c0])) as [es [s2 log2]] eqn:Hrun.
    simpl in Hlogs, Hoks. subst log2.
    pose proof Hoks as [(pre & c & Hcs & Hc & Hns) Hbelow].
    pose proof (own_args_below p tok seg cs Hbelow) as Hnone.
    pose proof (prefix_of_below p seg cs Hbelow) as Habove.
    assert (es = None ∨ es = Some NodeReadSkip →
      ∃ calls,
        (read_loop (traced fn) tok p items (s2, (log ++ [c0]) ++ cs)).2.2 =
          log ++ calls ∧
        loop_calls_ok p tok ((seg, sub) :: items).*1
          (read_loop (traced fn) tok p items (s2, (log ++ [c0]) ++ cs)).1 calls)
      as Hcont.
    { intros Hes.
      pose proof (calls_ok_nonstop _ _ _ Hoks Hes) as Hnscs.
      destruct (IH s2 ((log ++ [c0]) ++ cs))
        as (calls & Hlog & Hpre & Hres & Hargs & Hfull).
      rewrite <-!app_assoc in Hlog, Hres, Hfull |- *.
      exists (c0 :: cs ++ calls). rewrite Hlog.
      split; [by rewrite <-!app_assoc|].
      change (c0 :: cs ++ calls) with ([c0] ++ cs ++ calls).
      repeat split.
      - constructor; [done|]. by apply Forall_app.
      - destruct (read_loop _ _ _ _ _).1 as [x|].
        + destruct Hres as (pre' & c' & -> & Hc' & Hns').
          exists (c0 :: cs ++ pre'), c'.
          split; [simpl; by rewrite <-app_assoc|]. split; [done|].
          constructor; [by left|]. by apply Forall_app.
        + constructor; [by left|]. by apply Forall_app.
      - rewrite !own_args_app, Hown, Hnone. simpl. by apply prefix_cons.
      - intros He. rewrite !own_args_app, Hown, Hnone, (Hfull He). done. }
    destruct es as [[| |m]|]; [|by apply Hcont; right| |by apply Hcont; left].
    + exists (c0 :: cs). simpl. rewrite <-app_assoc. split; [done|].
      change (c0 :: cs) with ([c0] ++ cs). repeat split; [by constructor|..|done].
      * exists (c0 :: pre), c. rewrite Hcs. split; [done|]. split; [done|].
        constructor; [by left|done].
      * rewrite own_args_app, Hown, Hnone. by apply prefix_cons, prefix_nil.
    + exists (c0 :: cs). simpl. rewrite <-app_assoc. split; [done|].
      change (c0 :: cs) with ([c0] ++ cs). repeat split; [by constructor|..|done].
      * exists (c0 :: pre), c. rewrite Hcs. split; [done|]. split; [done|].
        constructor; [by left|done].
      * rewrite own_args_app, Hown, Hnone. by apply prefix_cons, prefix_nil.
Qed.
End traced_runs.

Section traced_reads.
Context {St : Type}.
Variable fn : ReadFun St.

(** A map or a slice: the start token, the loop and the end token. *)
Lemma container_calls (start loop_tok stop : ReaderToken) p
    (items : list (value * reader)) s log :
  start ≠ loop_tok → stop ≠ loop_tok →
  Forall (λ it, logs_calls it.2) items →
  ∃ calls,
    let r := and_then (traced fn p start VNull (s, log)) (λ s1,
             and_then (read_loop (traced fn) loop_tok p items s1) (λ s2,
             traced fn p stop VNull s2)) in
    r.2.2 = log ++ calls ∧ calls_ok p r.1 calls ∧
    own_args p loop_tok calls `prefix_of` items.*1 ∧
    (r.1 = None → own_args p loop_tok calls = items.*1).
Proof.
  intros Hstart Hstop Hitems. rewrite traced_eq.
  set (c0 := Call p start VNull (fn p start VNull s).1).
  assert (own_args p loop_tok [c0] = []) as Hown0
    by by apply own_args_other_tok.
  destruct (fn p start VNull s) as [e0 s1]. simpl in c0.
  destruct e0 as [e0|]; cbn [and_then fst snd].
  { exists [c0]. split; [done|]. split; [|split].
    - split; [|by constructor]. exists [], c0. done.
    - rewrite Hown0. apply prefix_nil.
    - done. }
  destruct (read_loop_calls fn loop_tok p items Hitems s1 (log ++ [c0]))
    as (cl & Hlog & Hpre & Hres & Hargs & Hfull).
  destruct (read_loop (traced fn) loop_tok p items (s1, log ++ [c0]))
    as [el [s2 log2]].
  simpl in Hlog, Hres, Hfull. subst log2.
  destruct el as [x|]; cbn [and_then fst snd].
  { destruct Hres as (pre & c & -> & Hc & Hns).
    exists (c0 :: pre ++ [c]). rewrite <-app_assoc.
    change (c0 :: pre ++ [c]) with ([c0] ++ pre ++ [c]).
    split; [done|]. split; [|split].
    - split; [|by constructor]. exists (c0 :: pre), c. split; [done|]. split; [done|].
      constructor; [by left|done].
    - by rewrite own_args_app, Hown0.
    - done. }
  rewrite traced_eq.
  set (c1 := Call p stop VNull (fn p stop VNull s2).1).
  assert (own_args p loop_tok [c1] = []) as Hown1
    by by apply own_args_other_tok.
  exists (c0 :: cl ++ [c1]). cbn [fst snd]. rewrite <-!app_assoc.
  change (c0 :: cl ++ [c1]) with ([c0] ++ cl ++ [c1]).
  split; [done|]. split; [|split].
  - split.
    + exists (c0 :: cl), c1. split; [done|]. split; [done|].
      constructor; [by left|done].
    + constructor; [done|]. apply Forall_app. split; [done|]. by constructor.
  - by rewrite !own_args_app, Hown0, Hown1, app_nil_r.
  - intros _. by rewrite !own_args_app, Hown0, Hown1, app_nil_r, Hfull.
Qed.

Lemma read_value_calls v : logs_calls (read_value (traced fn) v).
Proof.
  intros p s log. exists [Call p TokenValue v (fn p TokenValue v s).1].
  unfold read_value. rewrite traced_eq.
  destruct (fn p TokenValue v s) as [[e|] s1]; simpl;
    (split; [done|]); (split; [|by constructor]); by eexists [], _.
Qed.

Lemma node_items_fst (f : ReadFun (St * list call)) nc :
  (node_items f nc).*1 = VStr <$> sort_strings (node_keys nc).
Proof. unfold node_items. rewrite <-list_fmap_compose. done. Qed.

(** Every traversal logs at least one call; all but the last one returned
    nil or [NodeReadSkip], the last one returned what [read] returns, and
    every call is made at a path below the one [read] was given. *)
Lemma read_calls v : logs_calls (read (traced fn) v).
Proof.
  induction v as [nc IH|sc IH|s'|i|b| |t] using value_nested_ind.
  3-7: apply read_value_calls.
  - intros p s log. rewrite read_node.
    destruct (container_calls TokenNode TokenKey TokenEndNode p
                (node_items (traced fn) nc) s log) as (calls & H1 & H2 & _);
      [done|done| |by exists calls].
    unfold node_items. apply Forall_fmap, Forall_forall. intros k _. simpl.
    destruct (node_index_elem_or_null nc k) as [->|Hin].
    + apply read_value_calls.
    + rewrite Forall_forall in IH. apply (IH _ Hin).
  - intros p s log. rewrite read_array.
    destruct (container_calls TokenArray TokenIndex TokenEndArray p
                (array_items (traced fn) sc) s log) as (calls & H1 & H2 & _);
      [done|done| |by exists calls].
    unfold array_items. apply Forall_forall.
    intros [seg r] (i & x & [= -> ->] & Hx)%elem_of_lookup_imap_1. simpl.
    rewrite Forall_forall in IH. apply IH. by eapply list_elem_of_lookup_2.
Qed.

(** The Key tokens a map announces are a prefix of its sorted keys, and all
    of them when the traversal of the map returns nil. *)
Lemma read_node_keys nc p s :
  own_args p TokenKey (read_log fn (VNode nc) p s)
    `prefix_of` (VStr <$> sort_strings (node_keys nc)) ∧
  ((read (traced fn) (VNode nc) p (s, [])).1 = None →
   own_args p TokenKey (read_log fn (VNode nc) p s) =
     VStr <$> sort_strings (node_keys nc)).
Proof.
  unfold read_log. rewrite read_node.
  destruct (container_calls TokenNode TokenKey TokenEndNode p
              (node_items (traced fn) nc) s []) as (calls & H1 & _ & H3 & H4);
    [done|done| |].
  - unfold node_items. apply Forall_fmap, Forall_forall. intros k _.
    apply read_calls.
  - simpl in *. rewrite H1, node_items_fst in *. done.
Qed.

(** Logging does not change what the traversal returns. *)
Lemma read_traced_result v p s log :
  (read (traced fn) v p (s, log)).1 = (read fn v p s).1 ∧
  (read (traced fn) v p (s, log)).2.1 = (read fn v p s).2.
Proof.
  apply (read_sim (λ (sl : St * list call) (s : St), sl.1 = s)
           (traced fn) fn); [|done].
  intros q tok arg [s1 l1] s2 [= ->]. done.
Qed.
End traced_reads.

(** ** [Read] and its log *)

Section Read_properties.
Context {St : Type}.
Variable fn : ReadFun St.

Lemma Read_log_read_log n s : Read_log fn n s = read_log fn (VNode n) [] s.
Proof.
  unfold Read_log, read_log, Read.
  by destruct (read (traced fn) (VNode n) [] (s, [])) as [[[]|] sl].
Qed.

(** A call that the callback answered with anything but nil and
    [NodeReadSkip] is the last call, and its answer is what [read] returns. *)
Lemma stopping_call_last n s i c :
  Read_log fn n s !! i = Some c →
  ¬ nonstop c →
  S i = length (Read_log fn n s) ∧ (read fn (VNode n) [] s).1 = call_res c.
Proof.
  rewrite Read_log_read_log. unfold read_log. intros Hi Hstop.
  destruct (read_calls fn (VNode n) [] s [])
    as (calls & Hlog & (pre & c' & -> & Hres & Hns) & _).
  destruct (read_traced_result fn (VNode n) [] s []) as [<- _].
  rewrite app_nil_l in Hlog. rewrite Hlog in Hi |- *.
  rewrite length_app. simpl.
  destruct (decide (i < length pre)%nat) as [Hlt|Hge].
  - rewrite lookup_app_l in Hi by done.
    rewrite Forall_forall in Hns. destruct Hstop.
    by eapply Hns, list_elem_of_lookup_2.
  - rewrite lookup_app_r in Hi by lia.
    destruct (i - length pre)%nat as [|j] eqn:Hj; [|done].
    injection Hi as ->. split; [lia|done].
Qed.
(** When the first call returns a control value, it is the only call and
    [Read] returns nil. *)
Lemma Read_first_call_control n s e :
  (fn [] TokenNode VNull s).1 = Some e →
  e = NodeReadSkip ∨ e = NodeReadAbort →
  Read fn n s = (None, (fn [] TokenNode VNull s).2) ∧
  Read_log fn n s = [Call [] TokenNode VNull (Some e)].
Proof.
  intros He Hctl. unfold Read_log, Read.
  rewrite (read_start_stops fn (VNode n) TokenNode [] s e) by done.
  rewrite (read_start_stops (traced fn) (VNode n) TokenNode [] (s, []) e)
    by done.
  rewrite traced_eq, He. by destruct Hctl as [-> | ->].
Qed.
End Read_properties.

(** C3: when [read] hands [NodeReadSkip] or [NodeReadAbort] to [Read], [Read]
    returns nil; so it does when the first call of the callback returns one
    of them, and then no other call is made; and a call answered with
    [NodeReadAbort], wherever it occurs, is the last call and [Read] returns
    nil. *)
Theorem Read_swallows_control {St : Type} (fn : ReadFun St) (n : Node) (s : St) :
  ((read fn (VNode n) [] s).1 = Some NodeReadSkip ∨
   (read fn (VNode n) [] s).1 = Some NodeReadAbort →
   Read fn n s = (None, (read fn (VNode n) [] s).2)) ∧
  ((fn [] TokenNode VNull s).1 = Some NodeReadSkip ∨
   (fn [] TokenNode VNull s).1 = Some NodeReadAbort →
   Read fn n s = (None, (fn [] TokenNode VNull s).2) ∧
   Read_log fn n s = [Call [] TokenNode VNull (fn [] TokenNode VNull s).1]) ∧
  (∀ i c, Read_log fn n s !! i = Some c →
          call_res c = Some NodeReadAbort →
          S i = length (Read_log fn n s) ∧ (Read fn n s).1 = None).
Proof.
  split; [|split].
  - unfold Read. destruct (read fn (VNode n) [] s) as [e s1]. simpl.
    by intros [-> | ->].
  - intros Hfirst.
    assert (∃ e, (fn [] TokenNode VNull s).1 = Some e ∧
                 (e = NodeReadSkip ∨ e = NodeReadAbort)) as (e & He & Hctl)
      by (destruct Hfirst; eauto).
    rewrite He. by apply Read_first_call_control.
  - intros i c Hi Hres.
    destruct (stopping_call_last fn n s i c Hi) as [Hlast Hret].
    { unfold nonstop. rewrite Hres. by intros [|]. }
    split; [done|]. unfold Read.
    destruct (read fn (VNode n) [] s) as [e s1]. simpl in *.
    by rewrite Hret, Hres.
Qed.

Lemma Read_swallows_control_witness :
  Read (stop_at_once NodeReadAbort) doc_ab tt = (None, tt) ∧
  Read (stop_at_once NodeReadSkip) doc_ab tt = (None, tt) ∧
  Read_log (stop_at_once NodeReadSkip) doc_ab tt =
    [Call [] TokenNode VNull (Some NodeReadSkip)] ∧
  (3 = length (Read_log abort_at_value doc_ab tt) ∧
   (Read abort_at_value doc_ab tt).1 = None).
Proof.
  destruct (Read_swallows_control (stop_at_once NodeReadAbort) doc_ab tt)
    as (Habort & _ & _).
  destruct (Read_swallows_control (stop_at_once NodeReadSkip) doc_ab tt)
    as (_ & Hfirst & _).
  destruct (Read_swallows_control abort_at_value doc_ab tt) as (_ & _ & Hlater).
  split; [|split; [|split]].
  - apply Habort. by right.
  - apply Hfirst. by left.
  - apply Hfirst. by left.
  - by apply (Hlater 2%nat
                (Call [VStr "a"] TokenValue (VInt 1) (Some NodeReadAbort))).
Defined.

(** C4: a call of the callback that returns a consumer error (an error
    other than the two control values) is the last call of the traversal,
    and [Read] returns that very error. *)
Theorem consumer_error_propagates {St : Type} (fn : ReadFun St) (n : Node)
    (s : St) (i : nat) (c : call) (msg : string) :
  Read_log fn n s !! i = Some c →
  call_res c = Some (ErrOther msg) →
  S i = length (Read_log fn n s) ∧ (Read fn n s).1 = Some (ErrOther msg).
Proof.
  intros Hi Hres.
  destruct (stopping_call_last fn n s i c Hi) as [Hlast Hret].
  { unfold nonstop. rewrite Hres. by intros [|]. }
  split; [done|]. unfold Read.
  destruct (read fn (VNode n) [] s) as [e s1]. simpl in *.
  by rewrite Hret, Hres.
Qed.

Lemma consumer_error_propagates_witness :
  4 = length (Read_log fail_at_b doc_ba tt) ∧
  (Read fail_at_b doc_ba tt).1 = Some (ErrOther "boom").
Proof.
  by apply (consumer_error_propagates fail_at_b doc_ba tt 3%nat
              (Call [] TokenKey (VStr "b") (Some (ErrOther "boom")))).
Defined.

(** ** What follows a skipped start token *)

Lemma followed_cons x calls i c : followed calls i c → followed (x :: calls) (S i) c.
Proof. by intros (c' & Hc' & Hmove); exists c'. Qed.

Lemma followed_app_l l1 l2 i c : followed l1 i c → followed (l1 ++ l2) i c.
Proof.
  intros (c' & Hc' & Hmove). exists c'. split; [|done].
  by apply lookup_app_l_Some.
Qed.

Lemma followed_app_r l1 l2 i c :
  followed l2 i c → followed (l1 ++ l2) (length l1 + i) c.
Proof.
  intros (c' & Hc' & Hmove). exists c'. split; [|done].
  rewrite lookup_app_r by lia. rewrite <-Hc'. f_equal. lia.
Qed.

Section traced_skips.
Context {St : Type}.
Variable fn : ReadFun St.

Lemma read_loop_moves tok p (items : list (value * reader)) :
  matching_end tok = None → parent_tok tok →
  Forall (λ it, logs_moves it.2) items →
  ∀ s log, ∃ calls,
    (read_loop (traced fn) tok p items (s, log)).2.2 = log ++ calls ∧
    loop_skips p tok (read_loop (traced fn) tok p items (s, log)).1 calls.
Proof.
  intros Htok Hparent.
  induction 1 as [|[seg sub] items Hsub _ IH]; intros s log.
  { exists []. simpl. rewrite app_nil_r. split; [done|].
    split; [done|]. split; [done|]. split; [done|]. by intros i c Hi. }
  cbn [read_loop]. rewrite traced_eq.
  set (c0 := Call p tok seg (fn p tok seg s).1).
  assert (¬ skipped_start c0) as Hc0.
  { intros [_ [t Ht]]. simpl in Ht. by rewrite Htok in Ht. }
  destruct (fn p tok seg s) as [e0 s1] eqn:Hfn. simpl in c0.
  assert (∀ x, x ≠ NodeReadSkip → loop_skips p tok (Some x) [c0]) as Hstop.
  { intros x Hx. split; [by intros [= ->]|]. split; [done|].
    split; [by intros c [= <-]|].
    intros [|i] c Hi Hc; [|done]. injection Hi as <-. by destruct Hc0. }
  destruct e0 as [[| |m]|]; cbn [fst snd].
  - exists [c0]. split; [done|]. by apply Hstop.
  - destruct (IH s1 (log ++ [c0])) as (calls & Hlog & Hne & Hnil & Hhead & Hskips).
    exists (c0 :: calls). rewrite Hlog, <-app_assoc. split; [done|].
    split; [done|]. split; [done|]. split; [by intros c [= <-]|].
    intros [|i] c Hi Hc.
    + injection Hi as <-. by destruct Hc0.
    + destruct (Hskips i c Hi Hc) as [Hf|(Hlast & He & Hseg)].
      * left. by apply followed_cons.
      * right. simpl. by rewrite Hlast.
  - exists [c0]. split; [done|]. by apply Hstop.
  - simpl in Hsub.
    destruct (Hsub (p ++ [seg]) s1 (log ++ [c0])) as (cs & Hlogs & Hoks & Hmoves).
    destruct (sub (p ++ [seg]) (s1, log ++ [c0])) as [es [s2 log2]] eqn:Hrun.
    simpl in Hlogs, Hoks. subst log2.
    pose proof Hoks as [(pre & cl & Hcs & Hcl & Hns) Hbelow].
    assert (∀ i c, cs !! i = Some c → skipped_start c →
              followed cs i c ∨
              (cs = [c] ∧ call_path c = p ++ [seg] ∧ es = Some NodeReadSkip))
      as Hsub_skips.
    { intros i c Hi Hc. destruct (Hmoves i c Hi Hc) as [[-> Hpath]|Hf]; [|by left].
      right. split; [done|]. split; [done|].
      destruct pre as [|? [|? ?]]; try done.
      injection Hcs as ->. rewrite <-Hcl. apply Hc. }
    assert (es = None ∨ es = Some NodeReadSkip →
      ∃ calls,
        (read_loop (traced fn) tok p items (s2, (log ++ [c0]) ++ cs)).2.2 =
          log ++ calls ∧
        loop_skips p tok
          (read_loop (traced fn) tok p items (s2, (log ++ [c0]) ++ cs)).1 calls)
      as Hcont.
    { intros Hes.
      destruct (IH s2 ((log ++ [c0]) ++ cs))
        as (calls & Hlog & Hne & Hnil & Hhead & Hskips).
      exists (c0 :: cs ++ calls). rewrite Hlog.
      split; [by rewrite <-!app_assoc|].
      split; [done|]. split; [done|]. split; [by intros c [= <-]|].
      intros [|i] c Hi Hc.
      { injection Hi as <-. by destruct Hc0. }
      simpl in Hi. apply lookup_app_Some in Hi as [Hi|[Hge Hi]].
      - destruct (Hsub_skips i c Hi Hc) as [Hf|(-> & Hpath & _)].
        { left. by apply followed_cons, followed_app_l. }
        destruct i as [|i]; [|done]. simpl.
        destruct calls as [|c' calls].
        + right. split; [done|]. split; [by apply Hnil|]. by exists seg.
        + left. exists c'. split; [done|].
          destruct (Hhead c' eq_refl) as [Hp' Ht'].
          split; [exists seg; by rewrite Hp'|by rewrite Ht'].
      - destruct (Hskips _ c Hi Hc) as [Hf|(Hlast & He & Hseg)].
        + left. apply followed_cons.
          replace i with (length cs + (i - length cs))%nat by lia.
          by apply followed_app_r.
        + right. split; [|done]. simpl. rewrite length_app. lia. }
    assert (∀ x, es = Some x → x ≠ NodeReadSkip →
              loop_skips p tok (Some x) (c0 :: cs)) as Hfail.
    { intros x -> Hx. split; [by intros [= ->]|]. split; [done|].
      split; [by intros c [= <-]|].
      intros [|i] c Hi Hc.
      { injection Hi as <-. by destruct Hc0. }
      destruct (Hsub_skips i c Hi Hc) as [Hf|(_ & _ & [= ->])]; [|done].
      left. by apply followed_cons. }
    destruct es as [[| |m]|]; [|by apply Hcont; right| |by apply Hcont; left].
    + exists (c0 :: cs). rewrite <-app_assoc. split; [done|]. by apply Hfail.
    + exists (c0 :: cs). rewrite <-app_assoc. split; [done|]. by apply Hfail.
Qed.

Lemma container_moves (start loop_tok stop : ReaderToken) p
    (items : list (value * reader)) s log :
  matching_end loop_tok = None → parent_tok loop_tok →
  matching_end stop = None → parent_tok stop →
  Forall (λ it, logs_moves it.2) items →
  ∃ calls,
    (and_then (traced fn p start VNull (s, log)) (λ s1,
     and_then (read_loop (traced fn) loop_tok p items s1) (λ s2,
     traced fn p stop VNull s2))).2.2 = log ++ calls ∧
    skips_move_on p calls.
Proof.
  intros Hloop_tok Hloop_parent Hstop Hstop_parent Hitems. rewrite traced_eq.
  set (c0 := Call p start VNull (fn p start VNull s).1).
  destruct (fn p start VNull s) as [e0 s1]. simpl in c0.
  destruct e0 as [e0|]; cbn [and_then fst snd].
  { exists [c0]. split; [done|].
    intros [|i] c Hi Hc; [|done]. injection Hi as <-. by left. }
  destruct (read_loop_moves loop_tok p items Hloop_tok Hloop_parent Hitems
              s1 (log ++ [c0])) as (cl & Hlog & Hne & Hnil & Hhead & Hskips).
  destruct (read_loop (traced fn) loop_tok p items (s1, log ++ [c0]))
    as [el [s2 log2]].
  simpl in Hlog, Hne, Hnil, Hskips. subst log2.
  destruct el as [x|]; cbn [and_then fst snd].
  { exists (c0 :: cl). rewrite <-app_assoc. split; [done|].
    intros [|i] c Hi Hc.
    { injection Hi as <-. by destruct Hc as [[=] _]. }
    destruct (Hskips i c Hi Hc) as [Hf|(_ & [=] & _)].
    right. by apply followed_cons. }
  rewrite traced_eq.
  set (c1 := Call p stop VNull (fn p stop VNull s2).1).
  exists (c0 :: cl ++ [c1]). cbn [fst snd]. rewrite <-!app_assoc.
  split; [done|].
  intros [|i] c Hi Hc.
  { injection Hi as <-. by destruct Hc as [[=] _]. }
  simpl in Hi. apply lookup_app_Some in Hi as [Hi|[Hge Hi]].
  - right. apply followed_cons.
    destruct (Hskips i c Hi Hc) as [Hf|(Hlast & _ & seg & Hseg)].
    + by apply followed_app_l.
    + exists c1. split.
      * rewrite lookup_app_r by lia. by replace (S i - length cl)%nat with 0%nat by lia.
      * split; [by exists seg|done].
  - destruct (i - length cl)%nat as [|j]; [|done]. injection Hi as <-.
    destruct Hc as [_ [t Ht]]. simpl in Ht. by rewrite Hstop in Ht.
Qed.

Lemma read_value_moves v : logs_moves (read_value (traced fn) v).
Proof.
  intros p s log.
  destruct (read_value_calls fn v p s log) as (calls & Hlog & Hok).
  exists calls. split; [done|]. split; [done|].
  revert Hlog. unfold read_value. rewrite traced_eq.
  destruct (fn p TokenValue v s) as [[e|] s1]; simpl;
    intros <-%app_inv_head; intros [|i] c Hi [_ [t Ht]]; try done;
    by injection Hi as <-.
Qed.

Lemma read_moves v : logs_moves (read (traced fn) v).
Proof.
  induction v as [nc IH|sc IH|s'|i|b| |t] using value_nested_ind.
  3-7: apply read_value_moves.
  - intros p s log.
    destruct (read_calls fn (VNode nc) p s log) as (calls & Hlog & Hok).
    exists calls. split; [done|]. split; [done|].
    revert Hlog. rewrite read_node.
    destruct (container_moves TokenNode TokenKey TokenEndNode p
                (node_items (traced fn) nc) s log) as (calls' & -> & Hmoves);
      [done|by left|done|by right; right; left| |by intros <-%app_inv_head].
    unfold node_items. apply Forall_fmap, Forall_forall. intros k _. simpl.
    destruct (node_index_elem_or_null nc k) as [->|Hin].
    + apply read_value_moves.
    + rewrite Forall_forall in IH. apply (IH _ Hin).
  - intros p s log.
    destruct (read_calls fn (VArr sc) p s log) as (calls & Hlog & Hok).
    exists calls. split; [done|]. split; [done|].
    revert Hlog. rewrite read_array.
    destruct (container_moves TokenArray TokenIndex TokenEndArray p
                (array_items (traced fn) sc) s log) as (calls' & -> & Hmoves);
      [done|by right; left|done|by right; right; right|
       |by intros <-%app_inv_head].
    unfold array_items. apply Forall_forall.
    intros [seg r] (i & x & [= -> ->] & Hx)%elem_of_lookup_imap_1. simpl.
    rewrite Forall_forall in IH. apply IH. by eapply list_elem_of_lookup_2.
Qed.

(** In the log of [Read], a start token answered with [NodeReadSkip] is the
    only call (the root was skipped), or the very next call is made by the
    enclosing map or slice: the Key or Index token of the next sibling, or
    the end token of the enclosing one. *)
Lemma Read_log_skips n s : skips_move_on [] (Read_log fn n s).
Proof.
  rewrite Read_log_read_log. unfold read_log.
  destruct (read_moves (VNode n) [] s []) as (calls & Hlog & _ & Hmoves).
  rewrite app_nil_l in Hlog. by rewrite Hlog.
Qed.
End traced_skips.

(** ** Skipping at a start token *)

(** C1 (as the code has it): when the callback answers the start token of a
    map or a slice with [NodeReadSkip], [read] returns [NodeReadSkip] at once:
    this one call is all it logs, so no Key, Index or Value token is emitted
    for the contents and no end token is emitted either; the loop of the
    enclosing map or slice goes on with the next sibling; at the top level
    [Read] returns nil.  In the log of [Read], the call after such a start
    token, if there is one, is made by the enclosing map or slice (the Key
    or Index token of the next sibling, or its end token), never at the path
    of the skipped one. *)
Theorem skip_on_start_token {St : Type} (fn : ReadFun St) :
  (∀ v tok p s log,
     start_token v = Some tok →
     (fn p tok VNull s).1 = Some NodeReadSkip →
     read fn v p s = (Some NodeReadSkip, (fn p tok VNull s).2) ∧
     read (traced fn) v p (s, log) =
       (Some NodeReadSkip,
        ((fn p tok VNull s).2, log ++ [Call p tok VNull (Some NodeReadSkip)]))) ∧
  (∀ loop_tok p seg child tok rest s log,
     start_token child = Some tok →
     (fn p loop_tok seg s).1 = None →
     (fn (p ++ [seg]) tok VNull (fn p loop_tok seg s).2).1 = Some NodeReadSkip →
     read_loop (traced fn) loop_tok p ((seg, read (traced fn) child) :: rest)
       (s, log) =
     read_loop (traced fn) loop_tok p rest
       ((fn (p ++ [seg]) tok VNull (fn p loop_tok seg s).2).2,
        log ++ [Call p loop_tok seg None;
                Call (p ++ [seg]) tok VNull (Some NodeReadSkip)])) ∧
  (∀ n s,
     (fn [] TokenNode VNull s).1 = Some NodeReadSkip →
     Read fn n s = (None, (fn [] TokenNode VNull s).2) ∧
     Read_log fn n s = [Call [] TokenNode VNull (Some NodeReadSkip)]) ∧
  (∀ n s i c,
     Read_log fn n s !! i = Some c → skipped_start c →
     ((Read_log fn n s = [c] ∧ call_path c = []) ∨
      followed (Read_log fn n s) i c) ∧
     ∀ c', Read_log fn n s !! S i = Some c' → call_path c' ≠ call_path c).
Proof.
  assert (∀ v tok p s log,
     start_token v = Some tok →
     (fn p tok VNull s).1 = Some NodeReadSkip →
     read (traced fn) v p (s, log) =
       (Some NodeReadSkip,
        ((fn p tok VNull s).2, log ++ [Call p tok VNull (Some NodeReadSkip)])))
    as Htraced.
  { intros v tok p s log Hv Hskip.
    rewrite (read_start_stops (traced fn) v tok p (s, log) NodeReadSkip)
      by done.
    by rewrite traced_eq, Hskip. }
  split; [|split; [|split]].
  - intros v tok p s log Hv Hskip. split; [|by apply Htraced].
    by apply read_start_stops.
  - intros loop_tok p seg child tok rest s log Hchild Hkey Hskip.
    cbn [read_loop]. rewrite traced_eq, Hkey.
    rewrite (Htraced child tok) by done.
    by rewrite <-app_assoc.
  - intros n s Hskip. apply Read_first_call_control; [done|by left].
  - intros n s i c Hi Hc.
    pose proof (Read_log_skips fn n s i c Hi Hc) as Hnext.
    split; [done|]. intros c' Hc'.
    destruct Hnext as [[Hone _]|(c'' & Hc'' & [[seg Hseg] _])].
    + by rewrite Hone in Hc'.
    + rewrite Hc' in Hc''. injection Hc'' as <-. rewrite Hseg.
      intros Heq. apply (f_equal length) in Heq.
      rewrite length_app in Heq. simpl in Heq. lia.
Qed.

Lemma skip_on_start_token_witness :
  read (traced skip_arrays) (VArr [VInt 1]) [VStr "a"] (tt, []) =
    (Some NodeReadSkip,
     (tt, [Call [VStr "a"] TokenArray VNull (Some NodeReadSkip)])) ∧
  followed (Read_log skip_arrays doc_array tt) 2
    (Call [VStr "a"] TokenArray VNull (Some NodeReadSkip)).
Proof.
  destruct (skip_on_start_token skip_arrays) as (Hone & _ & _ & Hnext).
  split.
  - by apply (Hone (VArr [VInt 1]) TokenArray [VStr "a"] tt []).
  - destruct (Hnext doc_array tt 2%nat
                (Call [VStr "a"] TokenArray VNull (Some NodeReadSkip)))
      as [[[Hone' _]|Hfollowed] _]; [done|by split; [|eexists]|done|done].
Defined.

(** C1 as the spec words it fails: on [{"a": [1], "b": 2}] with a
    callback that skips slices at their start token, the start token of the
    slice is answered with [NodeReadSkip] and no [TokenEndArray] follows it,
    neither at once nor later; the traversal goes on with the key ["b"]. *)
Lemma skip_on_start_token_counterexample :
  Read_log skip_arrays doc_array tt =
    [Call [] TokenNode VNull None;
     Call [] TokenKey (VStr "a") None;
     Call [VStr "a"] TokenArray VNull (Some NodeReadSkip);
     Call [] TokenKey (VStr "b") None;
     Call [VStr "b"] TokenValue (VInt 2) None;
     Call [] TokenEndNode VNull None] ∧
  Forall (λ c, call_tok c ≠ TokenEndArray) (Read_log skip_arrays doc_array tt) ∧
  ¬ skipped_start_closed (Read_log skip_arrays doc_array tt).
Proof.
  split; [done|]. split.
  - by repeat constructor.
  - intros Hclosed.
    destruct (Hclosed 2%nat
                (Call [VStr "a"] TokenArray VNull (Some NodeReadSkip))
                TokenEndArray) as (c' & Hc' & Htok & _); [done..|].
    injection Hc' as <-. done.
Qed.

(** ** The order of the Key tokens *)

Lemma sort_strings_perm (k1 k2 : list string) :
  k1 ≡ₚ k2 → sort_strings k1 = sort_strings k2.
Proof.
  intros Hperm. unfold sort_strings.
  apply (Sorted_unique String.le); [apply Sorted_merge_sort, _..|].
  by rewrite !merge_sort_Permutation.
Qed.

Lemma node_get_perm (n1 n2 : Node) k :
  NoDup (node_keys n1) → n1 ≡ₚ n2 → node_get k n1 = node_get k n2.
Proof.
  intros Hnd Hperm.
  assert (NoDup (node_keys n2)) as Hnd2.
  { unfold node_keys in *. by rewrite <-Hperm. }
  destruct (node_get k n1) as [v|] eqn:H1.
  - symmetry. apply node_get_elem_NoDup; [done|].
    rewrite <-Hperm. by apply node_get_Some_elem.
  - symmetry. apply node_get_None. apply node_get_None in H1.
    unfold node_keys in *. by rewrite <-Hperm.
Qed.

Lemma read_node_perm {St : Type} (fn : ReadFun St) (n1 n2 : Node) p s :
  NoDup (node_keys n1) → n1 ≡ₚ n2 →
  read fn (VNode n1) p s = read fn (VNode n2) p s.
Proof.
  intros Hnd Hperm. rewrite !read_node.
  assert (node_items fn n1 = node_items fn n2) as ->; [|done].
  unfold node_items.
  rewrite (sort_strings_perm (node_keys n1) (node_keys n2))
    by (unfold node_keys; by rewrite Hperm).
  apply list_fmap_ext. intros _ k _. unfold node_index.
  by rewrite (node_get_perm n1 n2 k).
Qed.

(** Maps that stand for the same document hold the same keys. *)
Lemma same_doc_node_keys (n1 n2 : Node) :
  NoDup (node_keys n1) → NoDup (node_keys n2) →
  same_doc (VNode n1) (VNode n2) = true →
  node_keys n1 ≡ₚ node_keys n2.
Proof.
  intros Hnd1 Hnd2 [Hlen Hall]%same_doc_node.
  rewrite Forall_forall in Hall.
  assert (node_keys n1 ⊆ node_keys n2) as Hsub.
  { intros k [[k' x] [-> Hin]]%list_elem_of_fmap.
    destruct (Hall _ Hin) as (y & Hy & _). simpl in *.
    apply node_get_Some_elem in Hy.
    apply list_elem_of_fmap. by exists (k', y). }
  apply NoDup_Permutation; [done..|].
  intros k. split; [apply Hsub|]. by apply node_keys_covered.
Qed.

Section read_same_doc.
Context {St : Type}.
Variable fn : ReadFun St.

Lemma read_loop_ext tok p (items1 items2 : list (value * reader)) s :
  Forall2 (λ i1 i2, i1.1 = i2.1 ∧ ∀ q u, i1.2 q u = i2.2 q u) items1 items2 →
  read_loop fn tok p items1 s = read_loop fn tok p items2 s.
Proof.
  intros Hitems.
  destruct (read_loop_sim eq fn fn) with (tok := tok) (p := p)
    (items1 := items1) (items2 := items2) (s1 := s) (s2 := s) as [He Hs].
  - by intros ????? ->.
  - eapply Forall2_impl; [exact Hitems|].
    intros i1 i2 [Hseg Hrun]. split; [done|].
    intros q u1 u2 ->. by rewrite Hrun.
  - done.
  - destruct (read_loop fn tok p items1 s), (read_loop fn tok p items2 s).
    simpl in *. by subst.
Qed.

(** Two values that stand for the same document, that is, that are equal up
    to the order in which their maps list their entries, are traversed
    alike. *)
Lemma read_same_doc v1 :
  ∀ v2, wf v1 = true → wf v2 = true → same_doc v1 v2 = true →
  ∀ p s, read fn v1 p s = read fn v2 p s.
Proof.
  induction v1 as [n1 IH|a1 IH|s1|i1|b1| |t1] using value_nested_ind;
    intros [n2|a2|s2|i2|b2| |t2] Hwf1 Hwf2 Heq p s; try done.
  - rewrite !read_node.
    destruct (fn p TokenNode VNull s) as [[e|] s']; [done|]. simpl.
    rewrite (read_loop_ext _ _ (node_items fn n1) (node_items fn n2)); [done|].
    pose proof Hwf1 as [Hnd1 Hwfs1]%wf_node.
    pose proof Hwf2 as [Hnd2 Hwfs2]%wf_node.
    pose proof (same_doc_node_keys _ _ Hnd1 Hnd2 Heq) as Hkeys.
    apply same_doc_node in Heq as [_ Hall].
    rewrite Forall_forall in IH, Hall, Hwfs1, Hwfs2.
    unfold node_items. rewrite <-(sort_strings_perm _ _ Hkeys).
    apply Forall2_fmap, Forall_Forall2_diag, Forall_forall.
    intros k Hk. split; [done|]. simpl.
    unfold sort_strings in Hk. rewrite merge_sort_Permutation in Hk.
    apply list_elem_of_fmap in Hk as [[k' x] [-> Hx]]. simpl.
    destruct (Hall _ Hx) as (y & Hy & Hxy). simpl in Hy, Hxy.
    unfold node_index.
    rewrite (node_get_elem_NoDup _ _ _ Hnd1 Hx), Hy. simpl.
    apply (IH _ Hx); [apply (Hwfs1 _ Hx)| |done].
    apply (Hwfs2 (k', y)). by apply node_get_Some_elem.
  - rewrite !read_array.
    destruct (fn p TokenArray VNull s) as [[e|] s']; [done|]. simpl.
    rewrite (read_loop_ext _ _ (array_items fn a1) (array_items fn a2)); [done|].
    apply wf_arr in Hwf1, Hwf2. apply same_doc_arr in Heq.
    unfold array_items.
    apply (imap_Forall2 (λ x y, ∀ q u, read fn x q u = read fn y q u));
      [|done].
    revert a2 Hwf2 Heq.
    induction a1 as [|x a1 IHa]; intros a2 Hwf2 Heq;
      inversion Heq as [|? y ? r2 Hxy Hrest]; subst; constructor.
    + apply Forall_cons in IH as [IHx _], Hwf1 as [Hx _], Hwf2 as [Hy _]. auto.
    + apply Forall_cons in IH as [_ IHr], Hwf1 as [_ Hr1], Hwf2 as [_ Hr2]. auto.
  - simpl in Heq. by apply String.eqb_eq in Heq as ->.
  - simpl in Heq. by apply Z.eqb_eq in Heq as ->.
  - simpl in Heq. by apply Bool.eqb_prop in Heq as ->.
  - simpl in Heq. by apply Nat.eqb_eq in Heq as ->.
Qed.
End read_same_doc.

(** C2: the Key tokens [read] emits for a map are, in this order, the first
    ones of the keys of the map sorted in ascending byte-wise order, and all
    of them when the traversal of the map returns nil; listing the entries
    of the map, or of the maps nested in it, in another order changes
    neither the result nor the log.  For
    [{"a": 1, "b": 2}], in either order, the Key tokens are a prefix of
    ["a"], ["b"] whatever the callback does, and both appear when the
    callback goes on at every token. *)
Theorem Read_keys_sorted :
  (∀ (St : Type) (fn : ReadFun St) (nc : Node) (p : list value) (s : St),
     let keys := sort_strings (node_keys nc) in
     let emitted := own_args p TokenKey (read_log fn (VNode nc) p s) in
     Sorted String.le keys ∧
     keys ≡ₚ node_keys nc ∧
     emitted `prefix_of` (VStr <$> keys) ∧
     ((read fn (VNode nc) p s).1 = None → emitted = VStr <$> keys) ∧
     (∀ nc', NoDup (node_keys nc) → nc ≡ₚ nc' →
        read fn (VNode nc') p s = read fn (VNode nc) p s ∧
        read_log fn (VNode nc') p s = read_log fn (VNode nc) p s) ∧
     (∀ v', wf (VNode nc) = true → wf v' = true →
        same_doc (VNode nc) v' = true →
        read fn v' p s = read fn (VNode nc) p s ∧
        read_log fn v' p s = read_log fn (VNode nc) p s)) ∧
  (∀ (St : Type) (fn : ReadFun St) (s : St),
     own_args [] TokenKey (Read_log fn doc_ab s)
       `prefix_of` [VStr "a"; VStr "b"] ∧
     own_args [] TokenKey (Read_log fn doc_ba s)
       `prefix_of` [VStr "a"; VStr "b"]) ∧
  own_args [] TokenKey (Read_log always_continue doc_ab tt) =
    [VStr "a"; VStr "b"] ∧
  own_args [] TokenKey (Read_log always_continue doc_ba tt) =
    [VStr "a"; VStr "b"].
Proof.
  split; [|split; [|done]].
  - intros St fn nc p s keys emitted.
    destruct (read_node_keys fn nc p s) as [Hprefix Hfull].
    split; [apply Sorted_merge_sort, _|].
    split; [apply merge_sort_Permutation|].
    split; [done|]. split.
    + intros Hnil. apply Hfull.
      by destruct (read_traced_result fn (VNode nc) p s []) as [-> _].
    + split.
      * intros nc' Hnd Hperm. unfold read_log.
        by rewrite !(read_node_perm _ nc nc').
      * intros v' Hwf Hwf' Heq. unfold read_log.
        by rewrite !(read_same_doc _ (VNode nc) v').
  - intros St fn s. rewrite !Read_log_read_log.
    split; [apply (read_node_keys fn doc_ab [] s)|
            apply (read_node_keys fn doc_ba [] s)].
Qed.

Lemma Read_keys_sorted_witness :
  read always_continue (VNode doc_ba) [] tt =
    read always_continue (VNode doc_ab) [] tt ∧
  own_args [] TokenKey (read_log always_continue (VNode doc_ab) [] tt) =
    VStr <$> sort_strings (node_keys doc_ab) ∧
  read_log always_continue (VNode doc_nested') [] tt =
    read_log always_continue (VNode doc_nested) [] tt.
Proof.
  destruct Read_keys_sorted as (Hgen & _).
  destruct (Hgen unit always_continue doc_ab [] tt)
    as (_ & _ & _ & Hfull & Hperm & _).
  destruct (Hgen unit always_continue doc_nested [] tt)
    as (_ & _ & _ & _ & _ & Hdeep).
  split; [|split].
  - apply Hperm.
    + by apply (bool_decide_unpack (NoDup (node_keys doc_ab))).
    + apply Permutation_swap.
  - by apply Hfull.
  - by apply Hdeep.
Defined.

(** * Further properties of the link model *)

(** The nil link, which [LinkCast] returns for what is no link, is [Equal]
    to the nil link only: not to an empty map. *)
Lemma Equal_nil (l : LinkObj) : Equal None l = true ↔ l = None.
Proof. destruct l as [[a nc]|]; [|done]. split; [done|]. intros [=]. Qed.

(** A link that holds a NaN is not [Equal] to a copy of it, a second map
    object with the same entries. *)
Lemma Equal_NaN_copy a1 a2 k bits (nc : list (string * gvalue)) :
  a1 ≠ a2 → is_NaN bits = true →
  Equal (Some (a1, (k, GFloat bits) :: nc)) (Some (a2, (k, GFloat bits) :: nc))
    = false.
Proof.
  intros Hne Hnan. unfold Equal. simpl.
  destruct (Nat.eqb_spec a1 a2) as [|_]; [done|].
  rewrite String.eqb_refl. unfold float_eq. rewrite Hnan. simpl.
  apply andb_false_r.
Qed.

Lemma float_eq_trans b1 b2 b3 :
  float_eq b1 b2 = true → float_eq b2 b3 = true → float_eq b1 b3 = true.
Proof.
  unfold float_eq.
  destruct (is_NaN b1), (is_NaN b2), (is_NaN b3); simpl; try done.
  destruct (Z.eqb_spec b1 b2) as [->|_]; [done|].
  destruct (Z.eqb_spec b2 b3) as [<-|_]; simpl.
  - intros ->. by rewrite orb_true_r.
  - intros [-> _]%andb_true_iff [_ ->]%andb_true_iff. by rewrite orb_true_r.
Qed.

Lemma objects_elem (v1 v2 v3 o : gvalue) :
  o ∈ [v1; v2; v3] ≫= objects ↔
  o ∈ objects v1 ∨ o ∈ objects v2 ∨ o ∈ objects v3.
Proof.
  rewrite !bind_cons, !elem_of_app.
  change (o ∈ [] ≫= objects) with (o ∈ @nil gvalue).
  rewrite elem_of_nil. tauto.
Qed.

Lemma objects_child_node a nc k (x o : gvalue) :
  (k, x) ∈ nc → o ∈ objects x → o ∈ objects (GNode a nc).
Proof.
  intros Hx Ho. rewrite objects_node. right.
  apply list_elem_of_bind. exists x. split; [done|].
  apply list_elem_of_fmap. by exists (k, x).
Qed.

Lemma objects_child_arr a sc (x o : gvalue) :
  x ∈ sc → o ∈ objects x → o ∈ objects (GArr a sc).
Proof.
  intros Hx Ho. rewrite objects_arr. right.
  apply list_elem_of_bind. by exists x.
Qed.

Lemma objects_self_node a nc : GNode a nc ∈ objects (GNode a nc).
Proof. rewrite objects_node. left. Qed.

Lemma objects_self_arr a sc : GArr a sc ∈ objects (GArr a sc).
Proof. rewrite objects_arr. left. Qed.

(** In one store, [reflect.DeepEqual] is transitive. *)
Lemma DeepEqual_trans v1 :
  ∀ v2 v3, coherent [v1; v2; v3] = true →
           DeepEqual v1 v2 = true → DeepEqual v2 v3 = true →
           DeepEqual v1 v3 = true.
Proof.
  induction v1 as [|a1 n1 IH| |a1 s1 IH|s1|i1|b1| |f1] using gvalue_nested_ind;
    intros [|a2 n2| |a2 s2|s2|i2|b2| |f2] [|a3 n3| |a3 s3|s3|i3|b3| |f3]
      Hcoh H12 H23; try done.
  - rewrite coherent_spec in Hcoh.
    apply DeepEqual_node in H12 as [Hlen12 H12], H23 as [Hlen23 H23].
    destruct H12 as [->|Hall12].
    { assert (GNode a2 n1 = GNode a2 n2) as [= ->].
      { apply Hcoh; [apply objects_elem; left| apply objects_elem; right; left|].
        - apply objects_self_node.
        - apply objects_self_node.
        - simpl. apply Nat.eqb_refl. }
      by apply DeepEqual_node. }
    destruct H23 as [->|Hall23].
    { assert (GNode a3 n2 = GNode a3 n3) as [= ->].
      { apply Hcoh; [apply objects_elem; right; left
                    |apply objects_elem; right; right|].
        - apply objects_self_node.
        - apply objects_self_node.
        - simpl. apply Nat.eqb_refl. }
      apply DeepEqual_node. split; [done|by right]. }
    apply DeepEqual_node. split; [congruence|right].
    rewrite Forall_forall in IH, Hall12, Hall23. apply Forall_forall.
    intros [k x] Hx. simpl.
    destruct (Hall12 _ Hx) as (y & Hy & Hxy). simpl in Hy, Hxy.
    pose proof (gnode_get_Some_elem _ _ _ Hy) as Hyin.
    destruct (Hall23 _ Hyin) as (z & Hz & Hyz). simpl in Hz, Hyz.
    pose proof (gnode_get_Some_elem _ _ _ Hz) as Hzin.
    exists z. split; [done|]. apply (IH _ Hx y z); [|done..].
    apply coherent_spec. intros o1 o2 Ho1 Ho2. apply Hcoh.
    + apply objects_elem. apply objects_elem in Ho1 as [?|[?|?]];
        [left|right; left|right; right]; by eapply objects_child_node.
    + apply objects_elem. apply objects_elem in Ho2 as [?|[?|?]];
        [left|right; left|right; right]; by eapply objects_child_node.
  - rewrite coherent_spec in Hcoh.
    apply DeepEqual_arr in H12 as [Hlen12 H12], H23 as [Hlen23 H23].
    destruct H12 as [->|Hall12].
    { assert (GArr a2 s1 = GArr a2 s2) as [= ->].
      { apply Hcoh; [apply objects_elem; left| apply objects_elem; right; left|].
        - apply objects_self_arr.
        - apply objects_self_arr.
        - simpl. rewrite Nat.eqb_refl. simpl. by apply Nat.eqb_eq. }
      by apply DeepEqual_arr. }
    destruct H23 as [->|Hall23].
    { assert (GArr a3 s2 = GArr a3 s3) as [= ->].
      { apply Hcoh; [apply objects_elem; right; left
                    |apply objects_elem; right; right|].
        - apply objects_self_arr.
        - apply objects_self_arr.
        - simpl. rewrite Nat.eqb_refl. simpl. by apply Nat.eqb_eq. }
      apply DeepEqual_arr. split; [done|by right]. }
    apply DeepEqual_arr. split; [congruence|right].
    assert (∀ x y z, x ∈ s1 → y ∈ s2 → z ∈ s3 → coherent [x; y; z] = true)
      as Hsub.
    { intros x y z Hx Hy Hz. apply coherent_spec. intros o1 o2 Ho1 Ho2.
      apply Hcoh.
      - apply objects_elem. apply objects_elem in Ho1 as [?|[?|?]];
          [left|right; left|right; right]; by eapply objects_child_arr.
      - apply objects_elem. apply objects_elem in Ho2 as [?|[?|?]];
          [left|right; left|right; right]; by eapply objects_child_arr. }
    clear Hcoh Hlen12 Hlen23. revert s2 s3 Hall12 Hall23 Hsub.
    induction s1 as [|x s1 IHs]; intros s2 s3 Hall12 Hall23 Hsub;
      inversion Hall12 as [|? y ? r2 Hxy Hr12]; subst;
      inversion Hall23 as [|? z ? r3 Hyz Hr23]; subst; constructor.
    + apply Forall_cons in IH as [IHx _]. apply (IHx y z); [|done..].
      apply Hsub; left.
    + apply Forall_cons in IH as [_ IHr]. apply (IHs IHr r2 r3); [done..|].
      intros ??? ???. apply Hsub; by right.
  - simpl in *. apply String.eqb_eq in H12 as ->. done.
  - simpl in *. apply Z.eqb_eq in H12 as ->. done.
  - simpl in *. apply Bool.eqb_prop in H12 as ->. done.
  - simpl in *. by apply (float_eq_trans f1 f2 f3).
Qed.

(** The map objects that the package sees as a link. *)
Lemma link_entries_link (l : LinkObj) s :
  link_entries l = [(LinkKey, VStr s)] ↔
  ∃ a, l = Some (a, [(LinkKey, GStr s)]).
Proof.
  split.
  - destruct l as [[a nc]|]; [|done]. rewrite link_entries_Some.
    destruct nc as [|[k x] [|? ?]]; try done.
    intros [= -> ->%erase_str]. by exists a.
  - by intros [a ->].
Qed.

Lemma IsLink_link_entries (l : LinkObj) :
  IsLink (VNode (link_entries l)) = true ↔
  ∃ a s, l = Some (a, [(LinkKey, GStr s)]).
Proof.
  rewrite IsLink_shape. split.
  - intros [s [= [a ->]%link_entries_link]]. by exists a, s.
  - intros (a & s & ->). by exists s.
Qed.

(** Two map objects that hold one string under ["/"] and nothing else are
    deeply equal. *)
Lemma Equal_links a1 a2 s :
  Equal (Some (a1, [(LinkKey, GStr s)])) (Some (a2, [(LinkKey, GStr s)])) = true.
Proof.
  apply DeepEqual_node. split; [done|right].
  constructor; [|constructor]. exists (GStr s). split; [done|].
  apply String.eqb_refl.
Qed.

(** In one store, a map that is deeply equal to a link holds that one
    entry. *)
Lemma Equal_link_eq a1 s (l2 : LinkObj) :
  coherent [link_value (Some (a1, [(LinkKey, GStr s)])); link_value l2] = true →
  Equal (Some (a1, [(LinkKey, GStr s)])) l2 = true →
  ∃ a2, l2 = Some (a2, [(LinkKey, GStr s)]).
Proof.
  intros Hcoh Heq. destruct l2 as [[a2 n2]|]; [|done]. exists a2.
  apply DeepEqual_node in Heq as [Hlen [->|Hall]].
  - by rewrite (coherent_links _ _ a2 [(LinkKey, GStr s)] n2 Hcoh eq_refl eq_refl).
  - apply Forall_cons in Hall as [(y & Hy & Hxy) _]. simpl in Hy, Hxy.
    apply DeepEqual_str in Hxy as ->.
    destruct n2 as [|[k x] [|? ?]]; try done. simpl in Hy.
    destruct (String.eqb_spec k LinkKey) as [->|]; [|done]. by injection Hy as ->.
Qed.

Lemma LinkStr_Equal (l1 l2 : LinkObj) :
  gwf (link_value l1) = true → gwf (link_value l2) = true →
  coherent [link_value l1; link_value l2] = true →
  Equal l1 l2 = true → LinkStr (link_entries l1) = LinkStr (link_entries l2).
Proof.
  intros Hwf1 Hwf2 Hcoh H12.
  assert (Equal l2 l1 = true) as H21.
  { unfold Equal. by rewrite DeepEqual_sym. }
  destruct l1 as [[a1 n1]|], l2 as [[a2 n2]|]; try done.
  apply DeepEqual_node in H12 as [_ [->|Hall12]].
  { by rewrite (coherent_links _ _ a2 n1 n2 Hcoh eq_refl eq_refl). }
  apply DeepEqual_node in H21 as [_ [->|Hall21]].
  { by rewrite (coherent_links _ _ a1 n1 n2 Hcoh eq_refl eq_refl). }
  rewrite Forall_forall in Hall12, Hall21.
  unfold LinkStr. rewrite !link_entries_Some, !node_get_erase.
  destruct (gnode_get LinkKey n1) as [x|] eqn:H1.
  - destruct (Hall12 _ (gnode_get_Some_elem _ _ _ H1)) as (y & Hy & Hxy).
    simpl in Hy, Hxy. rewrite Hy. simpl.
    destruct x; try by (destruct y; try done; by apply DeepEqual_str_r in Hxy).
    by apply DeepEqual_str in Hxy as ->.
  - destruct (gnode_get LinkKey n2) as [y|] eqn:H2; [|done].
    destruct (Hall21 _ (gnode_get_Some_elem _ _ _ H2)) as (x & Hx & _).
    simpl in Hx. congruence.
Qed.

Lemma node_get_set_ne k k' x (n : Node) :
  k ≠ k' → node_get k' (node_set k x n) = node_get k' n.
Proof.
  intros Hne. induction n as [|[k0 x0] n IH]; simpl.
  - by destruct (String.eqb_spec k k').
  - destruct (String.eqb_spec k0 k) as [->|Hk0]; simpl.
    + destruct (String.eqb_spec k k'); done.
    + destruct (String.eqb_spec k0 k'); done.
Qed.

(** X1: for a value [v] that is a link, [LinkCast] returns [true] and a
    link that holds the entries of [v] and no other; converted back to a
    [Node], this link is accepted by [IsLink] and cast to itself by
    [LinkCast]; [LinkStr] reads from it the string that [v] holds under
    ["/"]; and, whichever map objects the two are, the link is [Equal] to
    the map of [v] converted to a [Link]. *)
Theorem LinkCast_round_trip (v : value) :
  IsLink v = true →
  (LinkCast v).2 = true ∧
  v = VNode (LinkCast v).1 ∧
  IsLink (VNode (LinkCast v).1) = true ∧
  LinkCast (VNode (LinkCast v).1) = LinkCast v ∧
  node_index (LinkCast v).1 LinkKey = VStr (LinkStr (LinkCast v).1) ∧
  (∀ l lv : LinkObj,
     link_entries l = (LinkCast v).1 → VNode (link_entries lv) = v →
     Equal l lv = true).
Proof.
  intros [s ->]%IsLink_shape. do 5 (split; [done|]).
  intros l lv [a ->]%link_entries_link [= [a' ->]%link_entries_link].
  apply Equal_links.
Qed.

Lemma LinkCast_round_trip_witness :
  LinkCast (VNode (LinkCast (VNode [("/", VStr "Qm1")])).1) =
    LinkCast (VNode [("/", VStr "Qm1")]) ∧
  node_index (LinkCast (VNode [("/", VStr "Qm1")])).1 LinkKey =
    VStr (LinkStr (LinkCast (VNode [("/", VStr "Qm1")])).1) ∧
  Equal (Some (7, [("/", GStr "Qm1")])) (Some (3, [("/", GStr "Qm1")])) = true.
Proof.
  destruct (LinkCast_round_trip (VNode [("/", VStr "Qm1")]) eq_refl)
    as (_ & _ & _ & Hcast & Hstr & Hequal).
  split; [exact Hcast|]. split; [exact Hstr|]. by apply Hequal.
Defined.

(** X2: in one store, a map is [Equal] to a link exactly when it holds the
    entry of the link and no other; so two links are [Equal] exactly when
    [LinkStr] reads the same string from both. *)
Theorem Equal_with_link (l1 l2 : LinkObj) :
  IsLink (VNode (link_entries l1)) = true →
  coherent [link_value l1; link_value l2] = true →
  (Equal l1 l2 = true ↔ link_entries l2 = link_entries l1) ∧
  (IsLink (VNode (link_entries l2)) = true →
   (Equal l1 l2 = true ↔
    LinkStr (link_entries l1) = LinkStr (link_entries l2))).
Proof.
  intros (a1 & s & ->)%IsLink_link_entries Hcoh. split.
  - split.
    + by intros [a2 ->]%Equal_link_eq.
    + intros [a2 ->]%link_entries_link. apply Equal_links.
  - intros (a2 & t & ->)%IsLink_link_entries. split.
    + by intros [a [= _ ->]]%Equal_link_eq.
    + unfold LinkStr. simpl. intros ->. apply Equal_links.
Qed.

Lemma Equal_with_link_witness :
  (Equal (Some (1, [("/", GStr "Qm1")])) (Some (2, [("/", GStr "Qm2")])) = true ↔
   link_entries (Some (2, [("/", GStr "Qm2")])) =
     link_entries (Some (1, [("/", GStr "Qm1")]))) ∧
  (IsLink (VNode (link_entries (Some (2, [("/", GStr "Qm2")])))) = true →
   (Equal (Some (1, [("/", GStr "Qm1")])) (Some (2, [("/", GStr "Qm2")])) = true ↔
    LinkStr (link_entries (Some (1, [("/", GStr "Qm1")]))) =
      LinkStr (link_entries (Some (2, [("/", GStr "Qm2")]))))).
Proof.
  by apply (Equal_with_link (Some (1, [("/", GStr "Qm1")]))
              (Some (2, [("/", GStr "Qm2")]))).
Defined.

(** X3: in one store, [Equal] is transitive. *)
Theorem Equal_trans (l1 l2 l3 : LinkObj) :
  coherent [link_value l1; link_value l2; link_value l3] = true →
  Equal l1 l2 = true → Equal l2 l3 = true → Equal l1 l3 = true.
Proof. apply DeepEqual_trans. Qed.

Lemma Equal_trans_witness :
  Equal (Some (1, [("a", GFloat 0); ("b", GArr 4 [GNull])]))
        (Some (3, [("a", GFloat 0); ("b", GArr 6 [GNull])])) = true.
Proof.
  by apply (Equal_trans (Some (1, [("a", GFloat 0); ("b", GArr 4 [GNull])]))
              (Some (2, [("b", GArr 5 [GNull]); ("a", GFloat (2 ^ 63))]))
              (Some (3, [("a", GFloat 0); ("b", GArr 6 [GNull])]))).
Defined.

Section hash_more.
Context {Multihash E : Type}.
Variable FromB58String : string → Multihash + E.

(** X4: in one store, two maps (no key repeated) that are [Equal] hold the
    same link string and have the same [Hash], result or error. *)
Theorem Equal_same_Hash (l1 l2 : LinkObj) :
  gwf (link_value l1) = true → gwf (link_value l2) = true →
  coherent [link_value l1; link_value l2] = true →
  Equal l1 l2 = true →
  LinkStr (link_entries l1) = LinkStr (link_entries l2) ∧
  Hash FromB58String (link_entries l1) = Hash FromB58String (link_entries l2).
Proof.
  intros Hwf1 Hwf2 Hcoh Heq.
  pose proof (LinkStr_Equal l1 l2 Hwf1 Hwf2 Hcoh Heq) as Hstr.
  split; [done|]. unfold Hash. by rewrite Hstr.
Qed.

(** X5: [Hash] returns an identifier exactly when the map holds under ["/"]
    a non-empty string that the decoder accepts; it looks at no other
    entry, so it does not ask for a link, and setting any other key leaves
    its result as it is. *)
Theorem Hash_succeeds_iff (l : Link) :
  (∀ h, Hash FromB58String l = inl h ↔
        ∃ s, node_get LinkKey l = Some (VStr s) ∧ s ≠ "" ∧
             FromB58String s = inl h) ∧
  (∀ k x, k ≠ LinkKey →
          Hash FromB58String (node_set k x l) = Hash FromB58String l).
Proof.
  split.
  - intros h. unfold Hash, LinkStr. split.
    + destruct (node_get LinkKey l) as [[| |s| | | |]|]; try done.
      destruct (String.eqb_spec s ""); [done|].
      destruct (FromB58String s) as [h'|] eqn:Hdec; [|done].
      intros [= ->]. by exists s.
    + intros (s & -> & Hne & Hdec).
      destruct (String.eqb_spec s ""); [done|]. by rewrite Hdec.
  - intros k x Hne. unfold Hash, LinkStr. by rewrite node_get_set_ne.
Qed.
End hash_more.

Lemma Equal_same_Hash_witness :
  LinkStr (link_entries (Some (1, [("/", GStr "Qm1"); ("n", GInt 1)]))) =
    LinkStr (link_entries (Some (2, [("n", GInt 1); ("/", GStr "Qm1")]))) ∧
  Hash sample_decoder
    (link_entries (Some (1, [("/", GStr "Qm1"); ("n", GInt 1)]))) =
  Hash sample_decoder
    (link_entries (Some (2, [("n", GInt 1); ("/", GStr "Qm1")]))).
Proof.
  by apply (Equal_same_Hash sample_decoder
              (Some (1, [("/", GStr "Qm1"); ("n", GInt 1)]))
              (Some (2, [("n", GInt 1); ("/", GStr "Qm1")]))).
Defined.

Lemma Hash_succeeds_iff_witness :
  Hash sample_decoder (node_set "size" (VInt 3) [("/", VStr "Qm1")]) =
    Hash sample_decoder [("/", VStr "Qm1")].
Proof.
  destruct (Hash_succeeds_iff sample_decoder [("/", VStr "Qm1")]) as [_ Hset].
  by apply Hset.
Defined.

(** * Further properties of the traversal *)

(** ** The traversal follows the token protocol *)

Section traced_protocol.
Context {St : Type}.
Variable fn : ReadFun St.

Lemma read_loop_run tok p (chs : list (value * value)) :
  Forall (λ ch, logs_run ch.2 (read (traced fn) ch.2)) chs →
  ∀ s log, ∃ calls,
    (read_loop (traced fn) tok p
       ((λ ch, (ch.1, read (traced fn) ch.2)) <$> chs) (s, log)).2.2 =
      log ++ calls ∧
    run_loop p tok chs
      (read_loop (traced fn) tok p
         ((λ ch, (ch.1, read (traced fn) ch.2)) <$> chs) (s, log)).1 calls.
Proof.
  induction 1 as [|[seg child] chs Hsub _ IH]; intros s log.
  { exists []. simpl. rewrite app_nil_r. split; [done|constructor]. }
  cbn [fmap list_fmap read_loop fst snd]. rewrite traced_eq.
  set (c0 := Call p tok seg (fn p tok seg s).1).
  destruct (fn p tok seg s) as [e0 s1] eqn:Hfn. simpl in c0.
  destruct e0 as [[| |m]|]; cbn [fst snd].
  - exists [c0]. split; [done|]. by constructor.
  - destruct (IH s1 (log ++ [c0])) as (calls & Hlog & Hrun).
    exists (c0 :: calls). rewrite Hlog, <-app_assoc. split; [done|].
    by constructor.
  - exists [c0]. split; [done|]. by constructor.
  - simpl in Hsub.
    destruct (Hsub (p ++ [seg]) s1 (log ++ [c0])) as (cs & Hlogs & Hruns).
    destruct (read (traced fn) child (p ++ [seg]) (s1, log ++ [c0]))
      as [es [s2 log2]] eqn:Hrun.
    simpl in Hlogs, Hruns. subst log2.
    assert (es = None ∨ es = Some NodeReadSkip →
      ∃ calls,
        (read_loop (traced fn) tok p
           ((λ ch, (ch.1, read (traced fn) ch.2)) <$> chs)
           (s2, (log ++ [c0]) ++ cs)).2.2 = log ++ calls ∧
        run_loop p tok ((seg, child) :: chs)
          (read_loop (traced fn) tok p
             ((λ ch, (ch.1, read (traced fn) ch.2)) <$> chs)
             (s2, (log ++ [c0]) ++ cs)).1 calls) as Hcont.
    { intros Hes.
      destruct (IH s2 ((log ++ [c0]) ++ cs)) as (calls & Hlog & Hrest).
      exists (c0 :: cs ++ calls). rewrite Hlog.
      split; [by rewrite <-!app_assoc|]. by eapply loop_child_goes. }
    destruct es as [[| |m]|]; [|by apply Hcont; right| |by apply Hcont; left].
    + exists (c0 :: cs). rewrite <-app_assoc. split; [done|]. by constructor.
    + exists (c0 :: cs). rewrite <-app_assoc. split; [done|]. by constructor.
Qed.

Lemma container_run v start loop stop chs p s log :
  opened v = Some (start, loop, stop, chs) →
  Forall (λ ch, logs_run ch.2 (read (traced fn) ch.2)) chs →
  ∃ calls,
    (and_then (traced fn p start VNull (s, log)) (λ s1,
     and_then (read_loop (traced fn) loop p
                 ((λ ch, (ch.1, read (traced fn) ch.2)) <$> chs) s1) (λ s2,
     traced fn p stop VNull s2))).2.2 = log ++ calls ∧
    run p v
      (and_then (traced fn p start VNull (s, log)) (λ s1,
       and_then (read_loop (traced fn) loop p
                   ((λ ch, (ch.1, read (traced fn) ch.2)) <$> chs) s1) (λ s2,
       traced fn p stop VNull s2))).1 calls.
Proof.
  intros Hv Hchs. rewrite traced_eq.
  set (c0 := Call p start VNull (fn p start VNull s).1).
  destruct (fn p start VNull s) as [e0 s1]. simpl in c0.
  destruct e0 as [e0|]; cbn [and_then fst snd].
  { exists [c0]. split; [done|]. by eapply run_refused. }
  destruct (read_loop_run loop p chs Hchs s1 (log ++ [c0]))
    as (cl & Hlog & Hrun).
  destruct (read_loop (traced fn) loop p _ (s1, log ++ [c0]))
    as [el [s2 log2]].
  simpl in Hlog, Hrun. subst log2.
  destruct el as [x|]; cbn [and_then fst snd].
  { exists (c0 :: cl). rewrite <-app_assoc. split; [done|].
    by eapply run_broken. }
  rewrite traced_eq.
  exists (c0 :: cl ++ [Call p stop VNull (fn p stop VNull s2).1]).
  cbn [fst snd]. rewrite <-!app_assoc. split; [done|].
  by eapply run_closed.
Qed.

Lemma read_value_run v : opened v = None → logs_run v (read_value (traced fn) v).
Proof.
  intros Hv p s log. exists [Call p TokenValue v (fn p TokenValue v s).1].
  unfold read_value. rewrite traced_eq.
  destruct (fn p TokenValue v s) as [[e|] s1]; simpl;
    (split; [done|]); by constructor.
Qed.

Lemma node_items_children (f : ReadFun (St * list call)) nc :
  node_items f nc =
  (λ ch, (ch.1, read f ch.2)) <$>
    ((λ k, (VStr k, node_index nc k)) <$> sort_strings (node_keys nc)).
Proof. unfold node_items. by rewrite <-list_fmap_compose. Qed.

Lemma array_items_children (f : ReadFun (St * list call)) sc :
  array_items f sc =
  (λ ch, (ch.1, read f ch.2)) <$> imap (λ i x, (VInt (Z.of_nat i), x)) sc.
Proof. unfold array_items. by rewrite fmap_imap. Qed.

Lemma read_run v : logs_run v (read (traced fn) v).
Proof.
  induction v as [nc IH|sc IH|s'|i|b| |t] using value_nested_ind.
  3-7: by apply read_value_run.
  - intros p s log. rewrite read_node, node_items_children.
    apply (container_run (VNode nc)); [done|].
    apply Forall_fmap, Forall_forall. intros k _. simpl.
    destruct (node_index_elem_or_null nc k) as [->|Hin].
    + by apply read_value_run.
    + rewrite Forall_forall in IH. apply (IH _ Hin).
  - intros p s log. rewrite read_array, array_items_children.
    apply (container_run (VArr sc)); [done|].
    apply Forall_forall.
    intros [seg x] (i & y & [= -> ->] & Hx)%elem_of_lookup_imap_1. simpl.
    rewrite Forall_forall in IH. apply IH. by eapply list_elem_of_lookup_2.
Qed.

(** The calls [read] makes, and what it returns, follow the protocol. *)
Lemma read_log_run v p s : run p v (read fn v p s).1 (read_log fn v p s).
Proof.
  unfold read_log.
  destruct (read_run v p s []) as (calls & Hlog & Hrun).
  rewrite app_nil_l in Hlog. rewrite Hlog.
  by destruct (read_traced_result fn v p s []) as [<- _].
Qed.
End traced_protocol.

(** ** What [Read] returns *)

(** X7: [Read] makes at least one call; no call before the last one was
    answered with [NodeReadAbort] or a consumer error; and what [Read]
    returns is the answer to the last call, with the two control values
    turned into nil. *)
Theorem Read_returns_last_answer {St : Type} (fn : ReadFun St) (n : Node)
    (s : St) :
  ∃ pre c,
    Read_log fn n s = pre ++ [c] ∧
    Forall nonstop pre ∧
    (Read fn n s).1 = match call_res c with
                      | Some NodeReadSkip | Some NodeReadAbort => None
                      | r => r
                      end.
Proof.
  destruct (read_calls fn (VNode n) [] s [])
    as (calls & Hlog & (pre & c & -> & Hres & Hns) & _).
  rewrite app_nil_l in Hlog.
  destruct (read_traced_result fn (VNode n) [] s []) as [He _].
  exists pre, c. rewrite Read_log_read_log. unfold read_log. rewrite Hlog.
  split; [done|]. split; [done|].
  rewrite Hres, He. unfold Read.
  by destruct (read fn (VNode n) [] s) as [[[]|] s1].
Qed.

(** ** The positions of a slice *)

Lemma array_items_fst {St : Type} (f : ReadFun St) sc :
  (array_items f sc).*1 = (λ i : nat, VInt (Z.of_nat i)) <$> seq 0 (length sc).
Proof.
  unfold array_items. rewrite fmap_imap.
  by rewrite <-(imap_seq_0 sc (λ i : nat, VInt (Z.of_nat i))).
Qed.

(** X12: the Index tokens [read] emits for a slice carry the positions 0,
    1, 2, ... in this order, without a gap, and reach the last position when
    the traversal of the slice returns nil. *)
Theorem read_indexes_in_order {St : Type} (fn : ReadFun St) (sc : list value)
    (p : list value) (s : St) :
  own_args p TokenIndex (read_log fn (VArr sc) p s)
    `prefix_of` ((λ i : nat, VInt (Z.of_nat i)) <$> seq 0 (length sc)) ∧
  ((read fn (VArr sc) p s).1 = None →
   own_args p TokenIndex (read_log fn (VArr sc) p s) =
     (λ i : nat, VInt (Z.of_nat i)) <$> seq 0 (length sc)).
Proof.
  unfold read_log.
  destruct (read_traced_result fn (VArr sc) p s []) as [<- _].
  rewrite read_array.
  destruct (container_calls fn TokenArray TokenIndex TokenEndArray p
              (array_items (traced fn) sc) s []) as (calls & H1 & _ & H3 & H4);
    [done|done| |].
  - unfold array_items. apply Forall_forall.
    intros [seg r] (i & x & [= -> ->] & Hx)%elem_of_lookup_imap_1.
    apply read_calls.
  - simpl in *. rewrite H1, array_items_fst in *. done.
Qed.

Lemma read_indexes_in_order_witness :
  own_args [] TokenIndex
    (read_log always_continue (VArr [VNull; VStr "x"; VArr []]) [] tt) =
  [VInt 0; VInt 1; VInt 2].
Proof.
  by apply (read_indexes_in_order always_continue
              [VNull; VStr "x"; VArr []] [] tt).
Defined.

(** ** [NodeReadSkip] on a Value or an end token *)

Section hush.
Context {St : Type}.
Variable fn : ReadFun St.

Lemma hush_open p tok arg s :
  closing_tok tok = false → hush fn p tok arg s = fn p tok arg s.
Proof.
  intros Htok. unfold hush. rewrite Htok.
  by destruct (fn p tok arg s) as [[[]|] s1].
Qed.

Lemma hush_closing p tok arg s :
  closing_tok tok = true → skip_eq (hush fn p tok arg s) (fn p tok arg s).
Proof.
  intros Htok. unfold hush, skip_eq. rewrite Htok.
  destruct (fn p tok arg s) as [[[]|] s1]; simpl; auto.
Qed.

Lemma read_loop_hush tok p (items1 items2 : list (value * reader)) s :
  closing_tok tok = false →
  Forall2 (λ i1 i2, i1.1 = i2.1 ∧ ∀ q u, skip_eq (i1.2 q u) (i2.2 q u))
          items1 items2 →
  read_loop (hush fn) tok p items1 s = read_loop fn tok p items2 s.
Proof.
  intros Htok Hitems. revert s.
  induction Hitems as [|[seg r1] [seg' r2] items1 items2 [Hseg Hsub] _ IH];
    intros s; [done|].
  simpl in Hseg, Hsub. subst seg'. cbn [read_loop].
  rewrite hush_open by done.
  destruct (fn p tok seg s) as [[[]|] s1]; try done.
  destruct (Hsub (p ++ [seg]) s1) as [Hs He].
  destruct (r1 (p ++ [seg]) s1) as [e1 u1], (r2 (p ++ [seg]) s1) as [e2 u2].
  simpl in Hs, He. subst u2.
  destruct He as [->|[-> ->]]; [|done].
  by destruct e2 as [[]|].
Qed.

Lemma and_then_skip_eq (r : option error * St) k1 k2 :
  (∀ u, skip_eq (k1 u) (k2 u)) → skip_eq (and_then r k1) (and_then r k2).
Proof. destruct r as [[e|] u]; simpl; [by split; [|left]|auto]. Qed.

Lemma read_hush v : ∀ p s, skip_eq (read (hush fn) v p s) (read fn v p s).
Proof.
  induction v as [nc IH|sc IH|s'|i|b| |t] using value_nested_ind; intros p s.
  3-7: rewrite !read_scalar by done; by apply hush_closing.
  - rewrite !read_node, hush_open by done.
    apply and_then_skip_eq. intros u.
    rewrite (read_loop_hush _ _ (node_items (hush fn) nc) (node_items fn nc))
      by first
        [ done
        | unfold node_items;
          apply Forall2_fmap, Forall_Forall2_diag, Forall_forall;
          intros k _; split; [done|]; simpl;
          destruct (node_index_elem_or_null nc k) as [->|Hin];
          [ intros q u'; rewrite !read_scalar by done; by apply hush_closing
          | rewrite Forall_forall in IH; apply (IH _ Hin) ] ].
    apply and_then_skip_eq. intros u'. by apply hush_closing.
  - rewrite !read_array, hush_open by done.
    apply and_then_skip_eq. intros u.
    rewrite (read_loop_hush _ _ (array_items (hush fn) sc) (array_items fn sc))
      by first
        [ done
        | unfold array_items;
          apply (imap_Forall2 (λ x y, x = y ∧
                   ∀ q u', skip_eq (read (hush fn) x q u') (read fn x q u')));
          [ apply Forall_Forall2_diag; eapply Forall_impl; [exact IH|];
            by intros x Hx
          | by intros i x y [<- Hx] ] ].
    apply and_then_skip_eq. intros u'. by apply hush_closing.
Qed.
End hush.

(** X8: answering a Value token or an end token with [NodeReadSkip] is the
    same as answering it with nil: [Read] returns the same error and leaves
    the callback in the same state. *)
Theorem Read_skip_on_closing_token {St : Type} (fn : ReadFun St) (n : Node)
    (s : St) :
  Read (hush fn) n s = Read fn n s.
Proof.
  unfold Read. destruct (read_hush fn (VNode n) [] s) as [Hs He].
  destruct (read (hush fn) (VNode n) [] s) as [e1 s1],
           (read fn (VNode n) [] s) as [e2 s2].
  simpl in Hs, He. subst s2. by destruct He as [->|[-> ->]].
Qed.

(** ** [NodeReadSkip] on a Key or an Index token *)

Lemma opened_tokens v start loop stop chs :
  opened v = Some (start, loop, stop, chs) →
  (start = TokenNode ∧ loop = TokenKey ∧ stop = TokenEndNode) ∨
  (start = TokenArray ∧ loop = TokenIndex ∧ stop = TokenEndArray).
Proof. destruct v; intros [= <- <- <- <-]; auto. Qed.

Lemma stays_on_cons x calls i c : stays_on calls i c → stays_on (x :: calls) (S i) c.
Proof. by intros (c' & Hc' & Hmove); exists c'. Qed.

Lemma stays_on_app_l l1 l2 i c : stays_on l1 i c → stays_on (l1 ++ l2) i c.
Proof.
  intros (c' & Hc' & Hmove). exists c'. split; [|done].
  by apply lookup_app_l_Some.
Qed.

Lemma stays_on_app_r l1 l2 i c :
  stays_on l2 i c → stays_on (l1 ++ l2) (length l1 + i) c.
Proof.
  intros (c' & Hc' & Hmove). exists c'. split; [|done].
  rewrite lookup_app_r by lia. rewrite <-Hc'. f_equal. lia.
Qed.

Lemma run_key_skipped :
  (∀ p v e calls, run p v e calls →
     ∀ i c, calls !! i = Some c → key_skipped c → stays_on calls i c) ∧
  (∀ p tok chs e cl, run_loop p tok chs e cl →
     tok = TokenKey ∨ tok = TokenIndex →
     (∀ c, head cl = Some c → call_path c = p ∧ call_tok c = tok) ∧
     (cl = [] → e = None) ∧
     ∀ i c, cl !! i = Some c → key_skipped c →
       stays_on cl i c ∨ (S i = length cl ∧ e = None ∧ call_path c = p)).
Proof.
  apply run_run_loop_ind.
  - (* a scalar *)
    intros p v e _ [|i] c Hi [_ Hkey]; [|done].
    injection Hi as <-. by destruct Hkey.
  - (* the start token is answered with an error *)
    intros p v start loop stop chs x Hv [|i] c Hi [_ Hkey]; [|done].
    injection Hi as <-. simpl in Hkey.
    by destruct (opened_tokens _ _ _ _ _ Hv) as [(-> & _)|(-> & _)], Hkey.
  - (* the loop returns an error *)
    intros p v start loop stop chs x cl Hv _ IH [|i] c Hi Hc.
    { injection Hi as <-. by destruct Hc as [[=] _]. }
    destruct IH as (_ & _ & IH).
    { by destruct (opened_tokens _ _ _ _ _ Hv) as [(_ & -> & _)|(_ & -> & _)];
        [left|right]. }
    destruct (IH i c Hi Hc) as [Hs|(_ & [=] & _)]. by apply stays_on_cons.
  - (* the loop runs to its end *)
    intros p v start loop stop chs cl e Hv _ IH [|i] c Hi Hc.
    { injection Hi as <-. by destruct Hc as [[=] _]. }
    pose proof (opened_tokens _ _ _ _ _ Hv) as Htoks.
    destruct IH as (_ & _ & IH).
    { by destruct Htoks as [(_ & -> & _)|(_ & -> & _)]; [left|right]. }
    apply stays_on_cons.
    simpl in Hi. apply lookup_app_Some in Hi as [Hi|[Hge Hi]].
    + destruct (IH i c Hi Hc) as [Hs|(Hlast & _ & Hp)].
      * by apply stays_on_app_l.
      * eexists. split; [|split].
        -- rewrite lookup_app_r by lia.
           by replace (S i - length cl)%nat with 0%nat by lia.
        -- done.
        -- simpl. destruct Htoks as [(_ & _ & ->)|(_ & _ & ->)];
             [by right; right; left|by right; right; right].
    + destruct (i - length cl)%nat as [|j]; [|done]. injection Hi as <-.
      destruct Hc as [_ Hkey]. simpl in Hkey.
      by destruct Htoks as [(_ & _ & ->)|(_ & _ & ->)], Hkey.
  - (* no child is left *)
    intros p tok _. split; [done|]. split; [done|]. by intros i c Hi.
  - (* the key is answered with an error *)
    intros p tok seg child rest x Hx _. split; [by intros c [= <-]|].
    split; [done|]. intros [|i] c Hi [Hres _]; [|done].
    injection Hi as <-. simpl in Hres. by injection Hres as ->.
  - (* the key is skipped *)
    intros p tok seg child rest e cl _ IH Htok.
    destruct (IH Htok) as (Hhead & Hnil & IHs).
    split; [by intros c [= <-]|]. split; [done|].
    intros [|i] c Hi Hc.
    + injection Hi as <-. destruct cl as [|c' cl].
      * right. split; [done|]. split; [by apply Hnil|done].
      * left. exists c'. split; [done|].
        destruct (Hhead c' eq_refl) as [-> ->]. split; [done|].
        destruct Htok as [->| ->]; [by left|by right; left].
    + destruct (IHs i c Hi Hc) as [Hs|(Hlast & He & Hp)].
      * left. by apply stays_on_cons.
      * right. simpl. by rewrite Hlast.
  - (* the child returns an error *)
    intros p tok seg child rest x cs Hx _ IH _.
    split; [by intros c [= <-]|]. split; [done|].
    intros [|i] c Hi Hc.
    { injection Hi as <-. by destruct Hc as [[=] _]. }
    left. by apply stays_on_cons, IH.
  - (* the child is done, the loop goes on *)
    intros p tok seg child rest es cs e cl Hes _ IHchild _ IHrest Htok.
    destruct (IHrest Htok) as (_ & _ & IHs).
    split; [by intros c [= <-]|]. split; [done|].
    intros [|i] c Hi Hc.
    { injection Hi as <-. by destruct Hc as [[=] _]. }
    simpl in Hi. apply lookup_app_Some in Hi as [Hi|[Hge Hi]].
    + left. by apply stays_on_cons, stays_on_app_l, IHchild.
    + destruct (IHs _ c Hi Hc) as [Hs|(Hlast & He & Hp)].
      * left. apply stays_on_cons.
        replace i with (length cs + (i - length cs))%nat by lia.
        by apply stays_on_app_r.
      * right. split; [|done]. simpl. rewrite length_app. lia.
Qed.

(** X9: when the callback answers a Key or an Index token with
    [NodeReadSkip], the value under that key or position is not traversed:
    the next call is made at the same path, with the Key or Index token of
    the next child or with the end token; there always is a next call. *)
Theorem Read_skip_on_key {St : Type} (fn : ReadFun St) (n : Node) (s : St)
    (i : nat) (c : call) :
  Read_log fn n s !! i = Some c →
  key_skipped c →
  stays_on (Read_log fn n s) i c.
Proof.
  rewrite Read_log_read_log. intros Hi Hc.
  destruct run_key_skipped as [Hrun _].
  by apply (Hrun [] (VNode n) _ _ (read_log_run fn (VNode n) [] s)).
Qed.

Lemma Read_skip_on_key_witness :
  stays_on (Read_log skip_keys doc_ab tt) 1
    (Call [] TokenKey (VStr "a") (Some NodeReadSkip)).
Proof.
  by apply (Read_skip_on_key skip_keys doc_ab tt 1%nat
              (Call [] TokenKey (VStr "a") (Some NodeReadSkip)));
    [|split; [|left]].
Defined.

(** ** The calls are about the document *)

Lemma value_at_app r p q :
  value_at r (p ++ q) = value_at r p ≫= λ v, value_at v q.
Proof.
  revert r. induction p as [|seg p IH]; intros r; [done|]. simpl.
  destruct r as [nc|sc| | | | |], seg as [| |k|j| | |]; try done.
  - destruct (node_get k nc); [apply IH|done].
  - destruct (0 <=? j)%Z; [|done]. destruct (sc !! Z.to_nat j); [apply IH|done].
Qed.

Lemma opened_ends_about v start loop stop chs r p e :
  opened v = Some (start, loop, stop, chs) →
  value_at r p = Some v →
  call_about r (Call p start VNull e) ∧ call_about r (Call p stop VNull e).
Proof.
  intros Hv Hp. destruct v as [nc|sc| | | | |]; try done;
    injection Hv as <- <- <- <-.
  - split; exists (VNode nc); (split; [exact Hp|]); simpl; eauto.
  - split; exists (VArr sc); (split; [exact Hp|]); simpl; eauto.
Qed.

Lemma opened_children_about v start loop stop chs r p :
  opened v = Some (start, loop, stop, chs) →
  value_at r p = Some v →
  Forall (λ ch, value_at r (p ++ [ch.1]) = Some ch.2 ∧
                ∀ e, call_about r (Call p loop ch.1 e)) chs.
Proof.
  intros Hv Hp. destruct v as [nc|sc| | | | |]; try done;
    injection Hv as <- <- <- <-.
  - apply Forall_fmap, Forall_forall. intros k Hk. simpl.
    unfold sort_strings in Hk. rewrite merge_sort_Permutation in Hk.
    assert (∃ x, node_get k nc = Some x) as [x Hx].
    { destruct (node_get k nc) as [x|] eqn:Hget; [by exists x|].
      by apply node_get_None in Hget. }
    split.
    + rewrite value_at_app, Hp. simpl. unfold node_index. by rewrite Hx.
    + intros e. exists (VNode nc). split; [done|]. simpl. by exists nc, k.
  - apply Forall_forall.
    intros [seg x] (i & y & [= -> ->] & Hi)%elem_of_lookup_imap_1. simpl.
    split.
    + rewrite value_at_app, Hp. simpl.
      destruct (Z.leb_spec 0 (Z.of_nat i)); [|lia].
      by rewrite Nat2Z.id, Hi.
    + intros e. exists (VArr sc). split; [done|]. simpl.
      exists sc, i. split; [done|]. split; [done|]. by eapply lookup_lt_Some.
Qed.

Lemma run_about :
  (∀ p v e calls, run p v e calls →
     ∀ r, value_at r p = Some v → Forall (call_about r) calls) ∧
  (∀ p tok chs e cl, run_loop p tok chs e cl →
     ∀ r, Forall (λ ch, value_at r (p ++ [ch.1]) = Some ch.2 ∧
                        ∀ e, call_about r (Call p tok ch.1 e)) chs →
          Forall (call_about r) cl).
Proof.
  apply run_run_loop_ind.
  - intros p v e Hv r Hp. constructor; [|done]. by exists v.
  - intros p v start loop stop chs x Hv r Hp. constructor; [|done].
    by apply (opened_ends_about _ _ _ _ _ _ _ _ Hv Hp).
  - intros p v start loop stop chs x cl Hv _ IH r Hp. constructor.
    + by apply (opened_ends_about _ _ _ _ _ _ _ _ Hv Hp).
    + by eapply IH, opened_children_about.
  - intros p v start loop stop chs cl e Hv _ IH r Hp. constructor.
    + by apply (opened_ends_about _ _ _ _ _ _ _ _ Hv Hp).
    + apply Forall_app. split; [by eapply IH, opened_children_about|].
      constructor; [|done]. by apply (opened_ends_about _ _ _ _ _ _ _ _ Hv Hp).
  - done.
  - intros p tok seg child rest x _ r [[_ Hkey] _]%Forall_cons. by constructor.
  - intros p tok seg child rest e cl _ IH r [[_ Hkey] Hrest]%Forall_cons.
    constructor; [done|by apply IH].
  - intros p tok seg child rest x cs _ _ IH r [[Hchild Hkey] _]%Forall_cons.
    constructor; [done|by apply IH].
  - intros p tok seg child rest es cs e cl _ _ IHchild _ IHrest r
      [[Hchild Hkey] Hrest]%Forall_cons.
    constructor; [done|]. apply Forall_app. split; [by apply IHchild|by apply IHrest].
Qed.

(** X10: every call [Read] makes is about the document: the path it is
    given leads, by indexing maps with its strings and slices with its
    integers, to a value of the document; for the tokens of a map that
    value is a map, and the argument of a Key token is one of its keys; for
    the tokens of a slice it is a slice, and the argument of an Index token
    is one of its positions; for a Value token it is the argument itself,
    neither a map nor a slice. *)
Theorem Read_calls_about_document {St : Type} (fn : ReadFun St) (n : Node)
    (s : St) :
  Forall (call_about (VNode n)) (Read_log fn n s).
Proof.
  rewrite Read_log_read_log. destruct run_about as [Hrun _].
  by apply (Hrun [] (VNode n) _ _ (read_log_run fn (VNode n) [] s)).
Qed.

(** X6: the calls [Read] makes, with their answers, follow the token
    protocol for the document, and the protocol ends with what [read]
    returns to [Read]. *)
Theorem Read_follows_protocol {St : Type} (fn : ReadFun St) (n : Node) (s : St) :
  run [] (VNode n) (read fn (VNode n) [] s).1 (Read_log fn n s).
Proof. rewrite Read_log_read_log. apply read_log_run. Qed.

(** ** Every map and slice that is opened is closed *)

Lemma closes_cons c calls :
  call_res c ≠ None ∨ matching_end (call_tok c) = None →
  closes calls → closes (c :: calls).
Proof.
  intros Hc Hcalls [|i] c0 stop Hi Hres Hend.
  - injection Hi as <-. destruct Hc as [Hc|Hc]; [done|congruence].
  - destruct (Hcalls i c0 stop Hi Hres Hend) as (j & c' & Hij & Hj & Hc').
    exists (S j), c'. split; [lia|done].
Qed.

Lemma closes_app l1 l2 : closes l1 → closes l2 → closes (l1 ++ l2).
Proof.
  intros H1 H2 i c stop Hi Hres Hend.
  apply lookup_app_Some in Hi as [Hi|[Hge Hi]].
  - destruct (H1 i c stop Hi Hres Hend) as (j & c' & Hij & Hj & Hc').
    exists j, c'. split; [done|]. split; [by apply lookup_app_l_Some|done].
  - destruct (H2 _ c stop Hi Hres Hend) as (j & c' & Hij & Hj & Hc').
    exists (length l1 + j)%nat, c'. split; [lia|]. split; [|done].
    rewrite lookup_app_r by lia. rewrite <-Hj. f_equal. lia.
Qed.

Lemma closes_nil : closes [].
Proof. by intros i c stop Hi. Qed.

Lemma opened_loop_tok v start loop stop chs :
  opened v = Some (start, loop, stop, chs) →
  matching_end loop = None ∧ matching_end stop = None ∧
  matching_end start = Some stop.
Proof. by destruct v; intros [= <- <- <- <-]. Qed.

Lemma run_closes :
  (∀ p v e calls, run p v e calls →
     e = None ∨ e = Some NodeReadSkip → closes calls) ∧
  (∀ p tok chs e cl, run_loop p tok chs e cl →
     matching_end tok = None →
     e ≠ Some NodeReadSkip ∧ (e = None → closes cl)).
Proof.
  apply run_run_loop_ind.
  - intros p v e Hv _. apply closes_cons; [by right|apply closes_nil].
  - intros p v start loop stop chs x _ _.
    apply closes_cons; [by left|apply closes_nil].
  - intros p v start loop stop chs x cl Hv _ IH [[=]|[= ->]].
    destruct (opened_loop_tok _ _ _ _ _ Hv) as (Hloop & _).
    by destruct (IH Hloop) as [Hne _].
  - intros p v start loop stop chs cl e Hv _ IH _.
    destruct (opened_loop_tok _ _ _ _ _ Hv) as (Hloop & Hstop & Hstart).
    destruct (IH Hloop) as [_ Hcl]. specialize (Hcl eq_refl).
    intros [|i] c stop' Hi Hres Hend.
    + injection Hi as <-. simpl in Hend. rewrite Hstart in Hend.
      injection Hend as <-.
      exists (S (length cl)), (Call p stop VNull e).
      split; [lia|]. split; [|done]. simpl.
      rewrite lookup_app_r by lia. by rewrite Nat.sub_diag.
    + simpl in Hi.
      destruct (closes_app cl [Call p stop VNull e] Hcl) with (i := i)
        (c := c) (stop := stop') as (j & c' & Hij & Hj & Hc'); [|done..|].
      { apply closes_cons; [by right|apply closes_nil]. }
      exists (S j), c'. split; [lia|done].
  - intros p tok _. split; [done|]. intros _. apply closes_nil.
  - intros p tok seg child rest x Hx _. split; [by intros [= ->]|done].
  - intros p tok seg child rest e cl _ IH Htok.
    destruct (IH Htok) as [Hne Hcl]. split; [done|]. intros He.
    apply closes_cons; [by right|by apply Hcl].
  - intros p tok seg child rest x cs Hx _ _ _. split; [by intros [= ->]|done].
  - intros p tok seg child rest es cs e cl Hes _ IHchild _ IHrest Htok.
    destruct (IHrest Htok) as [Hne Hcl]. split; [done|]. intros He.
    apply closes_cons; [by right|]. apply closes_app; [by apply IHchild|by apply Hcl].
Qed.

(** X11: in a traversal that the callback does not stop (no call is
    answered with [NodeReadAbort] or a consumer error), every start token
    answered with nil is followed, later on, by its end token at the same
    path. *)
Theorem Read_closes_what_it_opens {St : Type} (fn : ReadFun St) (n : Node)
    (s : St) :
  Forall nonstop (Read_log fn n s) →
  closes (Read_log fn n s).
Proof.
  rewrite Read_log_read_log. intros Hns.
  destruct run_closes as [Hrun _].
  apply (Hrun [] (VNode n) _ _ (read_log_run fn (VNode n) [] s)).
  destruct (read_calls fn (VNode n) [] s [])
    as (calls & Hlog & (pre & c & -> & Hres & _) & _).
  destruct (read_traced_result fn (VNode n) [] s []) as [<- _].
  rewrite app_nil_l in Hlog. unfold read_log in Hns. rewrite Hlog in Hns.
  apply Forall_app in Hns as [_ [Hc _]%Forall_cons].
  rewrite <-Hres. exact Hc.
Qed.

Lemma Read_closes_what_it_opens_witness :
  closes (Read_log skip_keys doc_nested tt).
Proof.
  apply (Read_closes_what_it_opens skip_keys doc_nested tt).
  apply (bool_decide_unpack
           (Forall (λ c, call_res c = None ∨ call_res c = Some NodeReadSkip)
              (Read_log skip_keys doc_nested tt))).
  by vm_compute.
Defined.

(** ** Every scalar is delivered, once *)

Lemma opened_child_at v start loop stop chs seg q w :
  opened v = Some (start, loop, stop, chs) →
  value_at v (seg :: q) = Some w →
  ∃ child, (seg, child) ∈ chs ∧ value_at child q = Some w.
Proof.
  intros Hv Hw. destruct v as [nc|sc| | | | |]; try done;
    injection Hv as <- <- <- <-; simpl in Hw.
  - destruct seg as [| |k| | | |]; try done.
    destruct (node_get k nc) as [x|] eqn:Hk; [|done].
    exists x. split; [|done]. apply list_elem_of_fmap. exists k. split.
    + unfold node_index. by rewrite Hk.
    + unfold sort_strings. rewrite merge_sort_Permutation.
      apply list_elem_of_fmap. exists (k, x). split; [done|].
      by apply node_get_Some_elem.
  - destruct seg as [| | |i| | |]; try done.
    destruct (Z.leb_spec 0 i); [|done].
    destruct (sc !! Z.to_nat i) as [x|] eqn:Hi; [|done].
    exists x. split; [|done].
    replace (VInt i) with (VInt (Z.of_nat (Z.to_nat i)))
      by (f_equal; lia).
    by apply (elem_of_lookup_imap_2
                (λ (i : nat) (x : value), (VInt (Z.of_nat i), x))).
Qed.

(** The last call of a traversal is answered with what is returned; a loop
    that returns an error ends with the call that was answered with it. *)
Lemma run_last_answer :
  (∀ p v e calls, run p v e calls →
     ∃ pre c, calls = pre ++ [c] ∧ call_res c = e) ∧
  (∀ p tok chs e cl, run_loop p tok chs e cl →
     ∀ x, e = Some x → ∃ pre c, cl = pre ++ [c] ∧ call_res c = Some x).
Proof.
  apply run_run_loop_ind.
  - intros p v e _. by eexists [], _.
  - intros p v start loop stop chs x _. by eexists [], _.
  - intros p v start loop stop chs x cl _ _ IH.
    destruct (IH x eq_refl) as (pre & c & -> & Hc).
    by exists (Call p start VNull None :: pre), c.
  - intros p v start loop stop chs cl e _ _ _.
    by exists (Call p start VNull None :: cl), (Call p stop VNull e).
  - by intros p tok x.
  - intros p tok seg child rest x _ y [= <-]. by eexists [], _.
  - intros p tok seg child rest e cl _ IH x He.
    destruct (IH x He) as (pre & c & -> & Hc).
    by exists (Call p tok seg (Some NodeReadSkip) :: pre), c.
  - intros p tok seg child rest x cs _ _ (pre & c & -> & Hc) y [= <-].
    by exists (Call p tok seg None :: pre), c.
  - intros p tok seg child rest es cs e cl _ _ _ _ IH x He.
    destruct (IH x He) as (pre & c & -> & Hc).
    exists (Call p tok seg None :: cs ++ pre), c.
    split; [|done]. simpl. by rewrite <-app_assoc.
Qed.

Lemma all_nil_last (pre : list call) c x :
  call_res c = Some x → ¬ Forall (λ c, call_res c = None) (pre ++ [c]).
Proof.
  intros Hc [_ [Hnil _]%Forall_cons]%Forall_app. congruence.
Qed.

Lemma run_delivers :
  (∀ p v e calls, run p v e calls →
     Forall (λ c, call_res c = None) calls →
     ∀ q w, value_at v q = Some w → opened w = None →
            Call (p ++ q) TokenValue w None ∈ calls) ∧
  (∀ p tok chs e cl, run_loop p tok chs e cl →
     Forall (λ c, call_res c = None) cl →
     ∀ seg child q w, (seg, child) ∈ chs →
       value_at child q = Some w → opened w = None →
       Call (p ++ seg :: q) TokenValue w None ∈ cl).
Proof.
  destruct run_last_answer as [Hlast Hlast_loop].
  apply run_run_loop_ind.
  - intros p v e Hv [He _]%Forall_cons q w Hw Hleaf. simpl in He. subst e.
    destruct q as [|seg q].
    + injection Hw as <-. rewrite app_nil_r. left.
    + by destruct v, seg.
  - by intros p v start loop stop chs x _ [[=] _]%Forall_cons.
  - intros p v start loop stop chs x cl _ Hloop _ [_ Hcl]%Forall_cons.
    destruct (Hlast_loop _ _ _ _ _ Hloop x eq_refl) as (pre & c & -> & Hc).
    by destruct (all_nil_last pre c x).
  - intros p v start loop stop chs cl e Hv _ IH
      [_ [Hcl _]%Forall_app]%Forall_cons q w Hw Hleaf.
    destruct q as [|seg q].
    { injection Hw as <-. congruence. }
    destruct (opened_child_at _ _ _ _ _ _ _ _ Hv Hw) as (child & Hin & Hchild).
    right. apply elem_of_app. left. by eapply IH.
  - intros p tok _ seg child q w Hin. by apply elem_of_nil in Hin.
  - by intros p tok seg child rest x _ [[=] _]%Forall_cons.
  - by intros p tok seg child rest e cl _ _ [[=] _]%Forall_cons.
  - intros p tok seg child rest x cs _ Hrun _ [_ Hcs]%Forall_cons.
    destruct (Hlast _ _ _ _ Hrun) as (pre & c & -> & Hc).
    by destruct (all_nil_last pre c x).
  - intros p tok seg child rest es cs e cl _ _ IHchild _ IHrest
      [_ [Hcs Hcl]%Forall_app]%Forall_cons seg' child' q w Hin Hw Hleaf.
    right. apply elem_of_app.
    apply elem_of_cons in Hin as [[= -> ->]|Hin].
    + left. specialize (IHchild Hcs q w Hw Hleaf).
      by rewrite <-app_assoc in IHchild.
    + right. by eapply IHrest.
Qed.

(** X15: when the callback answers every call with nil, every scalar of
    the document is delivered: for every path that leads to a value that is
    neither a map nor a slice, there is a Value call with that path and
    that value. *)
Theorem Read_delivers_every_scalar {St : Type} (fn : ReadFun St) (n : Node)
    (s : St) (q : list value) (w : value) :
  Forall (λ c, call_res c = None) (Read_log fn n s) →
  value_at (VNode n) q = Some w →
  opened w = None →
  Call q TokenValue w None ∈ Read_log fn n s.
Proof.
  rewrite Read_log_read_log. intros Hnil Hw Hleaf.
  destruct run_delivers as [Hrun _].
  by apply (Hrun [] (VNode n) _ _ (read_log_run fn (VNode n) [] s) Hnil q w).
Qed.

Lemma Read_delivers_every_scalar_witness :
  Call [VStr "x"; VStr "b"] TokenValue (VInt 2) None
    ∈ Read_log always_continue doc_nested' tt.
Proof.
  apply (Read_delivers_every_scalar always_continue doc_nested' tt
           [VStr "x"; VStr "b"] (VInt 2)); [|done..].
  apply (bool_decide_unpack
           (Forall (λ c, call_res c = None)
              (Read_log always_continue doc_nested' tt))).
  by vm_compute.
Defined.

Lemma value_paths_app l1 l2 :
  value_paths (l1 ++ l2) = value_paths l1 ++ value_paths l2.
Proof. unfold value_paths. by rewrite filter_app, fmap_app. Qed.

Lemma value_paths_other c calls :
  call_tok c ≠ TokenValue → value_paths (c :: calls) = value_paths calls.
Proof. intros Hc. unfold value_paths. by rewrite filter_cons_False. Qed.

Lemma opened_children_wf v start loop stop chs :
  opened v = Some (start, loop, stop, chs) →
  wf v = true →
  NoDup chs.*1 ∧ Forall (λ ch, wf ch.2 = true) chs ∧
  start ≠ TokenValue ∧ loop ≠ TokenValue ∧ stop ≠ TokenValue.
Proof.
  intros Hv Hwf. destruct v as [nc|sc| | | | |]; try done;
    injection Hv as <- <- <- <-.
  - apply wf_node in Hwf as [Hnd Hwf]. split; [|split; [|done]].
    + rewrite <-list_fmap_compose.
      assert (Inj (=) (=) VStr) by (by intros ?? [=]).
      apply (NoDup_fmap_2 VStr). unfold sort_strings.
      by rewrite merge_sort_Permutation.
    + apply Forall_fmap, Forall_forall. intros k _. simpl.
      destruct (node_index_elem_or_null nc k) as [->|Hin]; [done|].
      rewrite Forall_forall in Hwf. apply (Hwf _ Hin).
  - apply wf_arr in Hwf. split; [|split; [|done]].
    + assert ((imap (λ (i : nat) (x : value), (VInt (Z.of_nat i), x)) sc).*1 =
              (λ i : nat, VInt (Z.of_nat i)) <$> seq 0 (length sc)) as ->.
      { rewrite fmap_imap.
        by rewrite <-(imap_seq_0 sc (λ i : nat, VInt (Z.of_nat i))). }
      assert (Inj (=) (=) (λ i : nat, VInt (Z.of_nat i)))
        by (intros i j [= Hij]; lia).
      apply (NoDup_fmap_2 (λ i : nat, VInt (Z.of_nat i))), NoDup_seq.
    + apply Forall_forall.
      intros [seg x] (i & y & [= -> ->] & Hi)%elem_of_lookup_imap_1. simpl.
      rewrite Forall_forall in Hwf. apply Hwf. by eapply list_elem_of_lookup_2.
Qed.

Lemma run_delivers_once :
  (∀ p v e calls, run p v e calls →
     wf v = true →
     NoDup (value_paths calls) ∧
     Forall (λ q, p `prefix_of` q) (value_paths calls)) ∧
  (∀ p tok chs e cl, run_loop p tok chs e cl →
     tok ≠ TokenValue → NoDup chs.*1 → Forall (λ ch, wf ch.2 = true) chs →
     NoDup (value_paths cl) ∧
     Forall (λ q, ∃ seg, seg ∈ chs.*1 ∧ (p ++ [seg]) `prefix_of` q)
            (value_paths cl)).
Proof.
  apply run_run_loop_ind.
  - intros p v e _ _. unfold value_paths. rewrite filter_cons_True by done.
    simpl. split; [apply NoDup_singleton|by constructor].
  - intros p v start loop stop chs x Hv Hwf.
    destruct (opened_children_wf _ _ _ _ _ Hv Hwf) as (_ & _ & Hstart & _).
    rewrite value_paths_other by done. split; [constructor|constructor].
  - intros p v start loop stop chs x cl Hv _ IH Hwf.
    destruct (opened_children_wf _ _ _ _ _ Hv Hwf)
      as (Hnd & Hwfs & Hstart & Hloop & _).
    rewrite value_paths_other by done.
    destruct (IH Hloop Hnd Hwfs) as [Hnd' Hbelow]. split; [done|].
    eapply Forall_impl; [exact Hbelow|].
    intros q (seg & _ & Hq). etrans; [|exact Hq]. by apply prefix_app_r.
  - intros p v start loop stop chs cl e Hv _ IH Hwf.
    destruct (opened_children_wf _ _ _ _ _ Hv Hwf)
      as (Hnd & Hwfs & Hstart & Hloop & Hstop).
    rewrite value_paths_other, value_paths_app by done.
    rewrite (value_paths_other (Call p stop VNull e)) by done.
    unfold value_paths at 2 4. simpl. rewrite !app_nil_r.
    destruct (IH Hloop Hnd Hwfs) as [Hnd' Hbelow]. split; [done|].
    eapply Forall_impl; [exact Hbelow|].
    intros q (seg & _ & Hq). etrans; [|exact Hq]. by apply prefix_app_r.
  - intros p tok _ _ _. split; constructor.
  - intros p tok seg child rest x _ Htok _ _.
    rewrite value_paths_other by done. split; constructor.
  - intros p tok seg child rest e cl _ IH Htok [Hseg Hnd]%NoDup_cons
      [_ Hwfs]%Forall_cons.
    rewrite value_paths_other by done.
    destruct (IH Htok Hnd Hwfs) as [Hnd' Hbelow]. split; [done|].
    eapply Forall_impl; [exact Hbelow|].
    intros q (seg' & Hin & Hq). exists seg'. split; [by right|done].
  - intros p tok seg child rest x cs _ _ IH Htok _ [Hwf _]%Forall_cons.
    rewrite value_paths_other by done.
    destruct (IH Hwf) as [Hnd' Hbelow]. split; [done|].
    eapply Forall_impl; [exact Hbelow|].
    intros q Hq. exists seg. split; [by left|done].
  - intros p tok seg child rest es cs e cl _ _ IHchild _ IHrest Htok
      [Hseg Hnd]%NoDup_cons [Hwf Hwfs]%Forall_cons.
    rewrite value_paths_other, value_paths_app by done.
    destruct (IHchild Hwf) as [Hnd1 Hbelow1].
    destruct (IHrest Htok Hnd Hwfs) as [Hnd2 Hbelow2].
    rewrite Forall_forall in Hbelow1, Hbelow2. split.
    + apply NoDup_app. split; [done|]. split; [|done].
      intros q Hq1 Hq2. destruct (Hbelow2 q Hq2) as (seg' & Hin & Hq').
      specialize (Hbelow1 q Hq1).
      destruct Hbelow1 as [k1 ->], Hq' as [k2 Hk2].
      rewrite <-!app_assoc in Hk2. apply app_inv_head in Hk2.
      simpl in Hk2. injection Hk2 as -> _. done.
    + apply Forall_app. split; apply Forall_forall.
      * intros q Hq. exists seg. split; [by left|by apply Hbelow1].
      * intros q Hq. destruct (Hbelow2 q Hq) as (seg' & Hin & Hq').
        exists seg'. split; [by right|done].
Qed.

(** X16: in a document whose maps repeat no key, no two Value calls are
    made at the same path: a scalar is delivered at most once. *)
Theorem Read_delivers_once {St : Type} (fn : ReadFun St) (n : Node) (s : St) :
  wf (VNode n) = true →
  NoDup (value_paths (Read_log fn n s)).
Proof.
  rewrite Read_log_read_log. intros Hwf.
  destruct run_delivers_once as [Hrun _].
  by apply (Hrun [] (VNode n) _ _ (read_log_run fn (VNode n) [] s)).
Qed.

Lemma Read_delivers_once_witness :
  NoDup (value_paths (Read_log always_continue doc_nested tt)).
Proof. by apply (Read_delivers_once always_continue doc_nested tt). Defined.
